(** * firmware.cpp: the MCU side of the LLM PID tuner

    A shallow embedding of [src/firmware.cpp] and the properties of its
    control kernel and serial command handler.

    Modelling conventions.
    - The global variables of the sketch are the fields of one record,
      [State]; every function of the sketch is a function on that record.
    - The sketch is embedded twice, for two readings of [float].
      At top level a [float] is an exact rational ([Q]): [+], [-], [*], [/]
      are the field operations and [<], [>] the order of [Q], so there is
      no rounding, no infinity and no NaN.  What is stated there is about
      the dispatch and the parsing of lines, about which variables a
      function writes, about the time stamps, about the serial output and
      about which of the PID sum, the rate limit and the range limit gives
      the output of a control step.
      In [Module Binary32] a [float] is an IEEE 754 binary32 value: a
      number, an infinity or NaN, every operation rounded to nearest, ties
      to even.  The bounds of the control output, of the integral and of the
      temperature and the rate limit depend on rounding, overflow and NaN;
      they are stated there.
    - [Serial.print]/[Serial.println] calls are recorded, in order, as a list
      of [serial_out] events; the decimal rendering of a number is left to
      the receiver of the event.
    - The Arduino [String] methods used by the sketch ([trim], [startsWith],
      [indexOf], [lastIndexOf], [substring], [length], [toFloat], [==]) and the
      [constrain] macro come from the Arduino core, not from the sketch; they
      are modelled in [Module WString] and by [constrain] below after the
      core's documented behaviour. *)

From Stdlib Require Import ZArith QArith Qabs Qround Qpower Qreduction Lqa Lia
  List Bool Ascii String SpecFloat.
Import ListNotations.

Local Open Scope string_scope.
Local Open Scope Z_scope.

(* ------------------------------------------------------------------------- *)
(** ** Arduino [String] *)
(* ------------------------------------------------------------------------- *)

Module WString.

(** [isspace] of the C locale: space, and the controls TAB..CR. *)
Definition isspace (c : ascii) : bool :=
  let n := Z.of_nat (nat_of_ascii c) in
  (n =? 32) || ((9 <=? n) && (n <=? 13)).

Definition isdigit (c : ascii) : bool :=
  let n := Z.of_nat (nat_of_ascii c) in
  (48 <=? n) && (n <=? 57).

Definition digit_val (c : ascii) : Z := Z.of_nat (nat_of_ascii c) - 48.

Fixpoint skip_space (s : string) : string :=
  match s with
  | String c s' => if isspace c then skip_space s' else s
  | EmptyString => EmptyString
  end.

Fixpoint drop_trailing_space (s : string) : string :=
  match s with
  | EmptyString => EmptyString
  | String c s' =>
      match drop_trailing_space s' with
      | EmptyString => if isspace c then EmptyString else String c EmptyString
      | r => String c r
      end
  end.

(** [String::trim]: white space removed at both ends. *)
Definition trim (s : string) : string := drop_trailing_space (skip_space s).

(** [String::length], as the [int] the sketch compares and stores it in. *)
Definition len (s : string) : Z := Z.of_nat (String.length s).

(** [String::startsWith (p)]. *)
Definition startsWith (s p : string) : bool := String.prefix p s.

(** [strstr]: offset of the first occurrence of [pat] in [s]. *)
Fixpoint strstr (s pat : string) : option nat :=
  if String.prefix pat s then Some O
  else match s with
       | EmptyString => None
       | String _ s' => option_map S (strstr s' pat)
       end.

Fixpoint drop (n : nat) (s : string) : string :=
  match n, s with
  | S n', String _ s' => drop n' s'
  | _, _ => s
  end.

(** [String::indexOf (pat, fromIndex)]: [-1] when [fromIndex] is not below
    the length, or when there is no occurrence at or after it. *)
Definition indexOfFrom (s pat : string) (from : Z) : Z :=
  if (from <? 0) || (len s <=? from) then -1
  else match strstr (drop (Z.to_nat from) s) pat with
       | Some k => from + Z.of_nat k
       | None => -1
       end.

(** [String::indexOf (pat)] is [indexOf (pat, 0)]. *)
Definition indexOf (s pat : string) : Z := indexOfFrom s pat 0.

Fixpoint last_occurrence (s pat : string) : option nat :=
  match s with
  | EmptyString => None
  | String _ s' =>
      match last_occurrence s' pat with
      | Some k => Some (S k)
      | None => if String.prefix pat s then Some O else None
      end
  end.

(** [String::lastIndexOf (pat)]: [-1] for an empty pattern, an empty string
    or a pattern longer than the string; otherwise the last occurrence. *)
Definition lastIndexOf (s pat : string) : Z :=
  if (len pat =? 0) || (len s =? 0) || (len s <? len pat) then -1
  else match last_occurrence s pat with
       | Some k => Z.of_nat k
       | None => -1
       end.

(** [String::substring (left, right)]: the bounds are swapped when
    [left > right], the result is empty when [left] is not below the length,
    and [right] is cut at the length. *)
Definition substring (s : string) (left right : Z) : string :=
  let '(l, r) := if right <? left then (right, left) else (left, right) in
  if len s <=? l then EmptyString
  else
    let r := Z.min r (len s) in
    String.substring (Z.to_nat l) (Z.to_nat (r - l)) s.

(** [String::substring (left)] is [substring (left, length)]. *)
Definition substringFrom (s : string) (left : Z) : string :=
  substring s left (len s).

(** Decimal digits at the head of [s]: their value appended to [acc], how
    many were read, and the rest of the string. *)
Fixpoint read_digits (s : string) (acc : Z) (n : nat) : Z * nat * string :=
  match s with
  | String c s' =>
      if isdigit c then read_digits s' (10 * acc + digit_val c) (S n)
      else (acc, n, s)
  | EmptyString => (acc, n, s)
  end.

Definition read_sign (s : string) : bool * string :=
  match s with
  | String "-" s' => (true, s')
  | String "+" s' => (false, s')
  | _ => (false, s)
  end.

(** The exponent part [e<sign><digits>] of a literal; [0] when there is no
    well-formed one. *)
Definition read_exponent (s : string) : Z :=
  match s with
  | String c s' =>
      if (Ascii.eqb c "e" || Ascii.eqb c "E")%bool then
        let '(neg, s1) := read_sign s' in
        let '(e, n, _) := read_digits s1 0 O in
        match n with
        | O => 0
        | _ => if neg then - e else e
        end
      else 0
  | EmptyString => 0
  end.

(** [String::toFloat], that is [atof] on the buffer: leading white space is
    skipped, then the longest prefix that is a decimal literal
    [<sign>?<digits>?(.<digits>?)?(e<sign>?<digits>)?] is converted; when
    there is no digit in the mantissa nothing is converted and the result is
    [0].  The value is the exact rational, in lowest terms.  The literals
    [inf] and [nan], which some C libraries convert, have no value in [Q] and
    are read as text without a digit. *)
Definition toFloat (s : string) : Q :=
  let '(neg, s1) := read_sign (skip_space s) in
  let '(ip, ni, s2) := read_digits s1 0 O in
  let '(m, nf, s3) :=
    match s2 with
    | String "." s2' => read_digits s2' ip O
    | _ => (ip, O, s2)
    end in
  match (ni + nf)%nat with
  | O => 0%Q
  | _ =>
      let mant := (inject_Z m / inject_Z (10 ^ Z.of_nat nf))%Q in
      let v := (mant * Qpower (inject_Z 10) (read_exponent s3))%Q in
      Qred (if neg then - v else v)%Q
  end.

End WString.

(* ------------------------------------------------------------------------- *)
(** ** Configuration and global variables *)
(* ------------------------------------------------------------------------- *)

Local Open Scope Q_scope.

Definition CONTROL_INTERVAL_MS : Z := 50.

Definition PWM_MAX : Q := 6000.
Definition PWM_CHANGE_MAX : Q := 500.

(** The global variables of the sketch. *)
Record State : Type := mkState {
  kp : Q;
  ki : Q;
  kd : Q;
  setpoint : Q;
  current_temp : Q;
  pwm_output : Q;
  prev_pwm_output : Q;
  prev_error : Q;
  integral : Q;
  last_control_time : Z;
  timestamp_ms : Z
}.

(** Their initialisers. *)
Definition init_state : State :=
  {| kp := 1; ki := 0.1; kd := 0.05;
     setpoint := 100; current_temp := 20; pwm_output := 0;
     prev_pwm_output := 0; prev_error := 0; integral := 0;
     last_control_time := 0; timestamp_ms := 0 |}.

(** What the sketch writes to the serial port. *)
Inductive serial_out : Type :=
| print_str (s : string)
| print_ulong (n : Z)
| print_float (x : Q) (digits : nat)
| println_str (s : string)
| println_float (x : Q) (digits : nat).

(** [x < y] on [float], as a boolean. *)
Definition Qltb (x y : Q) : bool := negb (Qle_bool y x).

(** The [constrain (amt, low, high)] macro of [Arduino.h]:
    [amt < low ? low : (amt > high ? high : amt)]. *)
Definition constrain (amt low high : Q) : Q :=
  if Qltb amt low then low else if Qltb high amt then high else amt.

(** [unsigned long] is 32 bits wide. *)
Definition ulong (n : Z) : Z := (n mod 2 ^ 32)%Z.

(* ------------------------------------------------------------------------- *)
(** ** The control kernel *)
(* ------------------------------------------------------------------------- *)

(** [CONTROL_INTERVAL_MS / 1000.0f]. *)
Definition interval_s : Q := inject_Z CONTROL_INTERVAL_MS / 1000.

(** [setup ()], after the serial port is ready. *)
Definition setup (st : State) : State * list serial_out :=
  ({| kp := kp st; ki := ki st; kd := kd st;
      setpoint := setpoint st;
      current_temp := 20;
      pwm_output := 0;
      prev_pwm_output := prev_pwm_output st;
      prev_error := 0;
      integral := 0;
      last_control_time := last_control_time st;
      timestamp_ms := 0%Z |},
   [ println_str "# LLM PID Tuner Firmware v1.0 Ready";
     println_str "# Format: timestamp_ms,setpoint,input,pwm,error,p,i,d" ]).

Definition computePID (st : State) : State :=
  let error := setpoint st - current_temp st in
  let integral1 := integral st + error * interval_s in
  let integral2 := constrain integral1 (-100) 100 in
  let derivative := (error - prev_error st) / interval_s in
  let pid_output := kp st * error + ki st * integral2 + kd st * derivative in
  let pwm_delta := pid_output - prev_pwm_output st in
  let pid_output' :=
    if Qltb PWM_CHANGE_MAX (Qabs pwm_delta)
    then prev_pwm_output st
         + (if Qltb 0 pwm_delta then PWM_CHANGE_MAX else - PWM_CHANGE_MAX)
    else pid_output in
  let pwm := constrain pid_output' 0 PWM_MAX in
  {| kp := kp st; ki := ki st; kd := kd st;
     setpoint := setpoint st; current_temp := current_temp st;
     pwm_output := pwm;
     prev_pwm_output := pwm;
     prev_error := error;
     integral := integral2;
     last_control_time := last_control_time st;
     timestamp_ms := timestamp_ms st |}.

Definition updateSimulation (st : State) : State :=
  let heating_factor := 2 in
  let cooling_factor := 0.02 in
  let ambient_temp := 20 in
  let heat_input := (pwm_output st / 255) * heating_factor in
  let heat_loss := (current_temp st - ambient_temp) * cooling_factor in
  {| kp := kp st; ki := ki st; kd := kd st;
     setpoint := setpoint st;
     current_temp := current_temp st + (heat_input - heat_loss);
     pwm_output := pwm_output st;
     prev_pwm_output := prev_pwm_output st;
     prev_error := prev_error st;
     integral := integral st;
     last_control_time := last_control_time st;
     timestamp_ms := timestamp_ms st |}.

Definition sendDataToSerial (st : State) : list serial_out :=
  let error := setpoint st - current_temp st in
  [ print_ulong (timestamp_ms st); print_str ",";
    print_float (setpoint st) 2; print_str ",";
    print_float (current_temp st) 2; print_str ",";
    print_float (pwm_output st) 2; print_str ",";
    print_float error 2; print_str ",";
    print_float (kp st) 3; print_str ",";
    print_float (ki st) 3; print_str ",";
    println_float (kd st) 3 ].

(* ------------------------------------------------------------------------- *)
(** ** The command handler *)
(* ------------------------------------------------------------------------- *)

(** The branch of the [if ... else if ...] chain a trimmed, non-empty command
    line takes. *)
Inductive branch : Type :=
| BrGains | BrSetpoint | BrReset | BrStatus | BrNone.

Definition dispatch (command : string) : branch :=
  if WString.startsWith command "SET" || WString.startsWith command "PID"
  then BrGains
  else if WString.startsWith command "SETPOINT" then BrSetpoint
  else if String.eqb command "RESET" then BrReset
  else if String.eqb command "STATUS" then BrStatus
  else BrNone.

(** The parameter text of a gain line: the line with a leading [SET] cut
    off (a leading [PID] stays), trimmed. *)
Definition gain_params (command : string) : string :=
  WString.trim
    (if WString.startsWith command "SET"
     then WString.substringFrom command 3
     else command).

(** The value after the marker found at [idx]: up to the next space, or to
    the end of the text. *)
Definition marker_value (params : string) (idx : Z) : Q :=
  let e := WString.indexOfFrom params " " (idx + 2) in
  let e := if (e <? 0)%Z then WString.len params else e in
  WString.toFloat (WString.substring params (idx + 2) e).

(** [new_kp], [new_ki], [new_kd] as the gain branch computes them from the
    parameter text and the current gains. *)
Definition parse_gains (params : string) (g : Q * Q * Q) : Q * Q * Q :=
  let '(new_kp, new_ki, new_kd) := g in
  let p_idx := WString.indexOf params "P:" in
  let i_idx := WString.indexOf params "I:" in
  let d_idx := WString.indexOf params "D:" in
  let new_kp := if (p_idx >=? 0)%Z then marker_value params p_idx else new_kp in
  let new_ki := if (i_idx >=? 0)%Z then marker_value params i_idx else new_ki in
  let new_kd := if (d_idx >=? 0)%Z then marker_value params d_idx else new_kd in
  if (WString.indexOf params ":" <? 0)%Z then
    let space1 := WString.indexOf params " " in
    let space2 := WString.lastIndexOf params " " in
    if (space1 >? 0)%Z && (space2 >? space1)%Z then
      (WString.toFloat (WString.substring params 0 space1),
       WString.toFloat (WString.substring params (space1 + 1) space2),
       WString.toFloat (WString.substringFrom params (space2 + 1)))
    else (new_kp, new_ki, new_kd)
  else (new_kp, new_ki, new_kd).

(** [input] is [None] when [Serial.available ()] is zero, and otherwise the
    line [Serial.readStringUntil] returns. *)
Definition processSerialCommand (input : option string) (st : State)
  : State * list serial_out :=
  match input with
  | None => (st, [])
  | Some line =>
      let command := WString.trim line in
      if (WString.len command =? 0)%Z then (st, [])
      else
        match dispatch command with
        | BrGains =>
            let '(new_kp, new_ki, new_kd) :=
              parse_gains (gain_params command) (kp st, ki st, kd st) in
            ({| kp := new_kp; ki := new_ki; kd := new_kd;
                setpoint := setpoint st; current_temp := current_temp st;
                pwm_output := pwm_output st;
                prev_pwm_output := prev_pwm_output st;
                prev_error := prev_error st;
                integral := 0;
                last_control_time := last_control_time st;
                timestamp_ms := timestamp_ms st |},
             [ print_str "# PID Updated: P="; print_float new_kp 3;
               print_str " I="; print_float new_ki 3;
               print_str " D="; println_float new_kd 3 ])
        | BrSetpoint =>
            let colon_idx := WString.indexOf command ":" in
            if (colon_idx >? 0)%Z then
              let new_setpoint :=
                WString.toFloat (WString.substringFrom command (colon_idx + 1)) in
              ({| kp := kp st; ki := ki st; kd := kd st;
                  setpoint := new_setpoint; current_temp := current_temp st;
                  pwm_output := pwm_output st;
                  prev_pwm_output := prev_pwm_output st;
                  prev_error := prev_error st;
                  integral := integral st;
                  last_control_time := last_control_time st;
                  timestamp_ms := timestamp_ms st |},
               [ print_str "# Setpoint Updated: ";
                 println_float new_setpoint 2 ])
            else (st, [])
        | BrReset =>
            ({| kp := 1; ki := 0.1; kd := 0.05;
                setpoint := setpoint st; current_temp := 20;
                pwm_output := 0;
                prev_pwm_output := prev_pwm_output st;
                prev_error := prev_error st;
                integral := 0;
                last_control_time := last_control_time st;
                timestamp_ms := timestamp_ms st |},
             [ println_str "# System Reset" ])
        | BrStatus =>
            (st,
             [ print_str "# STATUS: Kp="; print_float (kp st) 3;
               print_str " Ki="; print_float (ki st) 3;
               print_str " Kd="; print_float (kd st) 3;
               print_str " Setpoint="; print_float (setpoint st) 2;
               print_str " Temp="; println_float (current_temp st) 2 ])
        | BrNone => (st, [])
        end
  end.

(* ------------------------------------------------------------------------- *)
(** ** The main loop *)
(* ------------------------------------------------------------------------- *)

(** Whether a control period has elapsed at time [now]: the subtraction is
    on [unsigned long]. *)
Definition control_due (now : Z) (st : State) : bool :=
  (ulong (ulong now - last_control_time st) >=? CONTROL_INTERVAL_MS)%Z.

(** [last_control_time = current_time; timestamp_ms = current_time;]. *)
Definition stamp (now : Z) (st : State) : State :=
  {| kp := kp st; ki := ki st; kd := kd st;
     setpoint := setpoint st; current_temp := current_temp st;
     pwm_output := pwm_output st;
     prev_pwm_output := prev_pwm_output st;
     prev_error := prev_error st;
     integral := integral st;
     last_control_time := ulong now;
     timestamp_ms := ulong now |}.

(** One pass of [loop ()]: [now] is what [millis ()] returns, [input] what
    the serial port holds. *)
Definition loop (now : Z) (input : option string) (st : State)
  : State * list serial_out :=
  let '(st1, out1) :=
    if control_due now st then
      let st_c := updateSimulation (computePID (stamp now st)) in
      (st_c, sendDataToSerial st_c)
    else (st, []) in
  let '(st2, out2) := processSerialCommand input st1 in
  (st2, (out1 ++ out2)%list).

(** Successive passes of [loop ()], one per element of [passes]. *)
Fixpoint run (passes : list (Z * option string)) (st : State)
  : State * list serial_out :=
  match passes with
  | [] => (st, [])
  | (now, input) :: rest =>
      let '(st1, out1) := loop now input st in
      let '(st2, out2) := run rest st1 in
      (st2, (out1 ++ out2)%list)
  end.

(* ------------------------------------------------------------------------- *)
(** ** The sketch in binary32 arithmetic *)
(* ------------------------------------------------------------------------- *)

(** The same sketch with [float] as IEEE 754 binary32.  A [float] is a
    number, an infinity or NaN; a number is given by its exact rational
    value, and every arithmetic operation returns its exact result rounded to
    the nearest binary32 value, ties to even, or an infinity when that is
    out of range.  The sign of a zero is not modelled: the sketch never
    divides by a variable, and zeros of both signs compare equal.  Each
    operation is rounded on its own (no fused multiply-add). *)
Module Binary32.

Inductive f32 : Type :=
| Fin (q : Q)
| Inf (negative : bool)
| NaN.

(** The integer [k] with [2^k <= a < 2^(k+1)], for [a > 0]. *)
Definition ilog2 (a : Q) : Z :=
  let k := (Z.log2 (Qnum a) - Z.log2 (Zpos (Qden a)))%Z in
  if Qle_bool (2 ^ k) a then k else (k - 1)%Z.

(** The integer nearest to [x], the even one of two nearest. *)
Definition rne (x : Q) : Z :=
  let fl := Qfloor x in
  match Qcompare (2 * (x - inject_Z fl)) 1 with
  | Lt => fl
  | Gt => (fl + 1)%Z
  | Eq => if Z.even fl then fl else (fl + 1)%Z
  end.

(** The exponent of the unit in the last place of a format with [prec]
    bits of precision and infinities at [2^emax], at magnitude [a > 0]. *)
Definition ulp_exp (prec emax : Z) (a : Q) : Z :=
  Z.max (ilog2 a - (prec - 1)) (3 - emax - prec).

(** Rounding of the exact value [q] to that format. *)
Definition round_to (prec emax : Z) (q : Q) : f32 :=
  if Qeq_bool q 0 then Fin 0
  else
    let a := Qabs q in
    let e := ulp_exp prec emax a in
    let v := inject_Z (rne (a / 2 ^ e)) * 2 ^ e in
    if Qle_bool (2 ^ emax) v then Inf (Qltb q 0)
    else Fin (Qred (if Qltb q 0 then - v else v)).

(** Rounding to binary32: 24 bits, infinities at [2^128]. *)
Definition round (q : Q) : f32 := round_to 24 128 q.

(** A decimal [float] literal, and an [int] converted to [float]. *)
Definition lit (q : Q) : f32 := round q.
Definition of_int (n : Z) : f32 := round (inject_Z n).

Definition fneg (x : f32) : f32 :=
  match x with
  | Fin a => Fin (- a)
  | Inf s => Inf (negb s)
  | NaN => NaN
  end.

Definition fabs (x : f32) : f32 :=
  match x with
  | Fin a => Fin (Qabs a)
  | Inf _ => Inf false
  | NaN => NaN
  end.

Definition fadd (x y : f32) : f32 :=
  match x, y with
  | NaN, _ | _, NaN => NaN
  | Inf sx, Inf sy => if Bool.eqb sx sy then x else NaN
  | Inf _, Fin _ => x
  | Fin _, Inf _ => y
  | Fin a, Fin b => round (a + b)
  end.

Definition fsub (x y : f32) : f32 := fadd x (fneg y).

Definition fmul (x y : f32) : f32 :=
  match x, y with
  | NaN, _ | _, NaN => NaN
  | Inf sx, Inf sy => Inf (xorb sx sy)
  | Inf sx, Fin b =>
      if Qeq_bool b 0 then NaN else Inf (xorb sx (Qltb b 0))
  | Fin a, Inf sy =>
      if Qeq_bool a 0 then NaN else Inf (xorb (Qltb a 0) sy)
  | Fin a, Fin b => round (a * b)
  end.

Definition fdiv (x y : f32) : f32 :=
  match x, y with
  | NaN, _ | _, NaN => NaN
  | Inf _, Inf _ => NaN
  | Inf sx, Fin b => Inf (xorb sx (Qltb b 0))
  | Fin _, Inf _ => Fin 0
  | Fin a, Fin b =>
      if Qeq_bool b 0
      then (if Qeq_bool a 0 then NaN else Inf (Qltb a 0))
      else round (a / b)
  end.

(** [x < y]; false when either is NaN. *)
Definition flt (x y : f32) : bool :=
  match x, y with
  | NaN, _ | _, NaN => false
  | Fin a, Fin b => Qltb a b
  | Fin _, Inf sy => negb sy
  | Inf sx, Fin _ => sx
  | Inf sx, Inf sy => sx && negb sy
  end.

(** [x > y]. *)
Definition fgt (x y : f32) : bool := flt y x.

(** [String::toFloat]: [atof] gives the nearest binary64 (53 bits,
    infinities at [2^1024]) to the decimal literal read, and the conversion
    to [float] rounds that to binary32. *)
Definition toFloat (s : string) : f32 :=
  match round_to 53 1024 (WString.toFloat s) with
  | Fin d => round d
  | Inf sd => Inf sd
  | NaN => NaN
  end.

Definition PWM_MAX : f32 := lit 6000.
Definition PWM_CHANGE_MAX : f32 := lit 500.

(** The global variables of the sketch. *)
Record State : Type := mkState {
  kp : f32;
  ki : f32;
  kd : f32;
  setpoint : f32;
  current_temp : f32;
  pwm_output : f32;
  prev_pwm_output : f32;
  prev_error : f32;
  integral : f32;
  last_control_time : Z;
  timestamp_ms : Z
}.

Definition init_state : State :=
  {| kp := lit 1; ki := lit 0.1; kd := lit 0.05;
     setpoint := lit 100; current_temp := lit 20; pwm_output := lit 0;
     prev_pwm_output := lit 0; prev_error := lit 0; integral := lit 0;
     last_control_time := 0; timestamp_ms := 0 |}.

Inductive serial_out : Type :=
| print_str (s : string)
| print_ulong (n : Z)
| print_float (x : f32) (digits : nat)
| println_str (s : string)
| println_float (x : f32) (digits : nat).

(** The [constrain (amt, low, high)] macro:
    [amt < low ? low : (amt > high ? high : amt)]. *)
Definition constrain (amt low high : f32) : f32 :=
  if flt amt low then low else if fgt amt high then high else amt.

(** [CONTROL_INTERVAL_MS / 1000.0f]. *)
Definition interval_s : f32 := fdiv (of_int CONTROL_INTERVAL_MS) (lit 1000).

Definition setup (st : State) : State * list serial_out :=
  ({| kp := kp st; ki := ki st; kd := kd st;
      setpoint := setpoint st;
      current_temp := lit 20;
      pwm_output := lit 0;
      prev_pwm_output := prev_pwm_output st;
      prev_error := lit 0;
      integral := lit 0;
      last_control_time := last_control_time st;
      timestamp_ms := 0%Z |},
   [ println_str "# LLM PID Tuner Firmware v1.0 Ready";
     println_str "# Format: timestamp_ms,setpoint,input,pwm,error,p,i,d" ]).

(** The integral after the accumulation, before it is constrained. *)
Definition integral_sum (st : State) : f32 :=
  fadd (integral st)
       (fmul (fsub (setpoint st) (current_temp st)) interval_s).

(** The PID sum of [computePID], before the rate limit and the range
    limit are applied to it. *)
Definition pid_raw (st : State) : f32 :=
  let error := fsub (setpoint st) (current_temp st) in
  let integral2 := constrain (integral_sum st) (fneg (lit 100)) (lit 100) in
  let derivative := fdiv (fsub error (prev_error st)) interval_s in
  fadd (fadd (fmul (kp st) error) (fmul (ki st) integral2))
       (fmul (kd st) derivative).

(** The PID sum after the rate limit, before the range limit. *)
Definition rate_limited (st : State) : f32 :=
  let pwm_delta := fsub (pid_raw st) (prev_pwm_output st) in
  if fgt (fabs pwm_delta) PWM_CHANGE_MAX
  then fadd (prev_pwm_output st)
            (if fgt pwm_delta (lit 0)
             then PWM_CHANGE_MAX else fneg PWM_CHANGE_MAX)
  else pid_raw st.

Definition computePID (st : State) : State :=
  let error := fsub (setpoint st) (current_temp st) in
  let integral1 := fadd (integral st) (fmul error interval_s) in
  let integral2 := constrain integral1 (fneg (lit 100)) (lit 100) in
  let derivative := fdiv (fsub error (prev_error st)) interval_s in
  let pid_output :=
    fadd (fadd (fmul (kp st) error) (fmul (ki st) integral2))
         (fmul (kd st) derivative) in
  let pwm_delta := fsub pid_output (prev_pwm_output st) in
  let pid_output' :=
    if fgt (fabs pwm_delta) PWM_CHANGE_MAX
    then fadd (prev_pwm_output st)
              (if fgt pwm_delta (lit 0)
               then PWM_CHANGE_MAX else fneg PWM_CHANGE_MAX)
    else pid_output in
  let pwm := constrain pid_output' (lit 0) PWM_MAX in
  {| kp := kp st; ki := ki st; kd := kd st;
     setpoint := setpoint st; current_temp := current_temp st;
     pwm_output := pwm;
     prev_pwm_output := pwm;
     prev_error := error;
     integral := integral2;
     last_control_time := last_control_time st;
     timestamp_ms := timestamp_ms st |}.

Definition updateSimulation (st : State) : State :=
  let heating_factor := lit 2 in
  let cooling_factor := lit 0.02 in
  let ambient_temp := lit 20 in
  let heat_input := fmul (fdiv (pwm_output st) (lit 255)) heating_factor in
  let heat_loss := fmul (fsub (current_temp st) ambient_temp) cooling_factor in
  {| kp := kp st; ki := ki st; kd := kd st;
     setpoint := setpoint st;
     current_temp := fadd (current_temp st) (fsub heat_input heat_loss);
     pwm_output := pwm_output st;
     prev_pwm_output := prev_pwm_output st;
     prev_error := prev_error st;
     integral := integral st;
     last_control_time := last_control_time st;
     timestamp_ms := timestamp_ms st |}.

Definition sendDataToSerial (st : State) : list serial_out :=
  let error := fsub (setpoint st) (current_temp st) in
  [ print_ulong (timestamp_ms st); print_str ",";
    print_float (setpoint st) 2; print_str ",";
    print_float (current_temp st) 2; print_str ",";
    print_float (pwm_output st) 2; print_str ",";
    print_float error 2; print_str ",";
    print_float (kp st) 3; print_str ",";
    print_float (ki st) 3; print_str ",";
    println_float (kd st) 3 ].

Definition marker_value (params : string) (idx : Z) : f32 :=
  let e := WString.indexOfFrom params " " (idx + 2) in
  let e := if (e <? 0)%Z then WString.len params else e in
  toFloat (WString.substring params (idx + 2) e).

Definition parse_gains (params : string) (g : f32 * f32 * f32)
  : f32 * f32 * f32 :=
  let '(new_kp, new_ki, new_kd) := g in
  let p_idx := WString.indexOf params "P:" in
  let i_idx := WString.indexOf params "I:" in
  let d_idx := WString.indexOf params "D:" in
  let new_kp := if (p_idx >=? 0)%Z then marker_value params p_idx else new_kp in
  let new_ki := if (i_idx >=? 0)%Z then marker_value params i_idx else new_ki in
  let new_kd := if (d_idx >=? 0)%Z then marker_value params d_idx else new_kd in
  if (WString.indexOf params ":" <? 0)%Z then
    let space1 := WString.indexOf params " " in
    let space2 := WString.lastIndexOf params " " in
    if (space1 >? 0)%Z && (space2 >? space1)%Z then
      (toFloat (WString.substring params 0 space1),
       toFloat (WString.substring params (space1 + 1) space2),
       toFloat (WString.substringFrom params (space2 + 1)))
    else (new_kp, new_ki, new_kd)
  else (new_kp, new_ki, new_kd).

Definition processSerialCommand (input : option string) (st : State)
  : State * list serial_out :=
  match input with
  | None => (st, [])
  | Some line =>
      let command := WString.trim line in
      if (WString.len command =? 0)%Z then (st, [])
      else
        match dispatch command with
        | BrGains =>
            let '(new_kp, new_ki, new_kd) :=
              parse_gains (gain_params command) (kp st, ki st, kd st) in
            ({| kp := new_kp; ki := new_ki; kd := new_kd;
                setpoint := setpoint st; current_temp := current_temp st;
                pwm_output := pwm_output st;
                prev_pwm_output := prev_pwm_output st;
                prev_error := prev_error st;
                integral := lit 0;
                last_control_time := last_control_time st;
                timestamp_ms := timestamp_ms st |},
             [ print_str "# PID Updated: P="; print_float new_kp 3;
               print_str " I="; print_float new_ki 3;
               print_str " D="; println_float new_kd 3 ])
        | BrSetpoint =>
            let colon_idx := WString.indexOf command ":" in
            if (colon_idx >? 0)%Z then
              let new_setpoint :=
                toFloat (WString.substringFrom command (colon_idx + 1)) in
              ({| kp := kp st; ki := ki st; kd := kd st;
                  setpoint := new_setpoint; current_temp := current_temp st;
                  pwm_output := pwm_output st;
                  prev_pwm_output := prev_pwm_output st;
                  prev_error := prev_error st;
                  integral := integral st;
                  last_control_time := last_control_time st;
                  timestamp_ms := timestamp_ms st |},
               [ print_str "# Setpoint Updated: ";
                 println_float new_setpoint 2 ])
            else (st, [])
        | BrReset =>
            ({| kp := lit 1; ki := lit 0.1; kd := lit 0.05;
                setpoint := setpoint st; current_temp := lit 20;
                pwm_output := lit 0;
                prev_pwm_output := prev_pwm_output st;
                prev_error := prev_error st;
                integral := lit 0;
                last_control_time := last_control_time st;
                timestamp_ms := timestamp_ms st |},
             [ println_str "# System Reset" ])
        | BrStatus =>
            (st,
             [ print_str "# STATUS: Kp="; print_float (kp st) 3;
               print_str " Ki="; print_float (ki st) 3;
               print_str " Kd="; print_float (kd st) 3;
               print_str " Setpoint="; print_float (setpoint st) 2;
               print_str " Temp="; println_float (current_temp st) 2 ])
        | BrNone => (st, [])
        end
  end.

Definition control_due (now : Z) (st : State) : bool :=
  (ulong (ulong now - last_control_time st) >=? CONTROL_INTERVAL_MS)%Z.

Definition stamp (now : Z) (st : State) : State :=
  {| kp := kp st; ki := ki st; kd := kd st;
     setpoint := setpoint st; current_temp := current_temp st;
     pwm_output := pwm_output st;
     prev_pwm_output := prev_pwm_output st;
     prev_error := prev_error st;
     integral := integral st;
     last_control_time := ulong now;
     timestamp_ms := ulong now |}.

Definition loop (now : Z) (input : option string) (st : State)
  : State * list serial_out :=
  let '(st1, out1) :=
    if control_due now st then
      let st_c := updateSimulation (computePID (stamp now st)) in
      (st_c, sendDataToSerial st_c)
    else (st, []) in
  let '(st2, out2) := processSerialCommand input st1 in
  (st2, (out1 ++ out2)%list).

Fixpoint run (passes : list (Z * option string)) (st : State)
  : State * list serial_out :=
  match passes with
  | [] => (st, [])
  | (now, input) :: rest =>
      let '(st1, out1) := loop now input st in
      let '(st2, out2) := run rest st1 in
      (st2, (out1 ++ out2)%list)
  end.

(** The control outputs [computePID] produces along those passes, oldest
    first. *)
Fixpoint control_outputs (passes : list (Z * option string)) (st : State)
  : list f32 :=
  match passes with
  | [] => []
  | (now, input) :: rest =>
      let st' := fst (loop now input st) in
      if control_due now st
      then pwm_output (computePID (stamp now st)) :: control_outputs rest st'
      else control_outputs rest st'
  end.

(** The value of a binary32 number given by sign, mantissa and exponent,
    for comparison with the operations of [SpecFloat]. *)
Definition of_spec (x : spec_float) : f32 :=
  match x with
  | S754_zero _ => Fin 0
  | S754_infinity s => Inf s
  | S754_nan => NaN
  | S754_finite s m e =>
      Fin (Qred ((if s then -1 else 1) * inject_Z (Zpos m) * 2 ^ e))
  end.

Definition f32_eqb (x y : f32) : bool :=
  match x, y with
  | Fin a, Fin b => Qeq_bool a b
  | Inf s, Inf t => Bool.eqb s t
  | NaN, NaN => true
  | _, _ => false
  end.

(** Whether the four operations and the comparison agree with those of
    [SpecFloat] at precision 24 on every pair of operands from [xs]. *)
Definition agrees_with_SpecFloat (xs : list spec_float) : bool :=
  forallb
    (fun x =>
       forallb
         (fun y =>
            f32_eqb (of_spec (SFadd 24 128 x y)) (fadd (of_spec x) (of_spec y))
            && f32_eqb (of_spec (SFsub 24 128 x y))
                       (fsub (of_spec x) (of_spec y))
            && f32_eqb (of_spec (SFmul 24 128 x y))
                       (fmul (of_spec x) (of_spec y))
            && f32_eqb (of_spec (SFdiv 24 128 x y))
                       (fdiv (of_spec x) (of_spec y))
            && Bool.eqb (SFltb x y) (flt (of_spec x) (of_spec y)))
         xs)
    xs.

(** Binary32 values of all kinds: zero, the constants of the sketch,
    results of its first control steps, the smallest and largest numbers,
    numbers below the normal range, infinities and NaN. *)
Definition binary32_samples : list spec_float :=
  [ S754_zero false;
    S754_finite false 8388608 (-23);
    S754_finite true 8388608 (-23);
    S754_finite false 13421773 (-27);
    S754_finite true 13421773 (-28);
    S754_finite false 16384000 (-15);
    S754_finite false 12288000 (-11);
    S754_finite false 10511974 (-16);
    S754_finite false 10538189 (-17);
    S754_finite false 1 (-149);
    S754_finite true 12345 (-149);
    S754_finite false 8388608 (-149);
    S754_finite false 14791142 104;
    S754_finite false 16777215 104;
    S754_infinity false;
    S754_infinity true;
    S754_nan ].

(** The rounded magnitude of [a > 0], before the range check of
    [round]. *)
Definition rounded_magnitude (a : Q) : Q :=
  inject_Z (rne (a / 2 ^ ulp_exp 24 128 a)) * 2 ^ ulp_exp 24 128 a.

(** A number, or NaN, within [lo, hi]. *)
Definition within (lo hi : Q) (x : f32) : Prop :=
  exists q, x = Fin q /\ lo <= q <= hi.

Definition nan_or_within (lo hi : Q) (x : f32) : Prop :=
  x = NaN \/ within lo hi x.



(** What the rounding of [prev + 500] and [prev - 500] can add to a
    change of 500: half a unit in the last place below 8192. *)
Definition SLEW_ROUNDING : Q := 1 # 4096.

(** Two successive outputs, when both are numbers, differ by at most
    [500 + SLEW_ROUNDING]. *)
Definition slew_step (prev out : f32) : Prop :=
  match prev, out with
  | Fin p, Fin o => Qabs (o - p) <= 500 + SLEW_ROUNDING
  | _, _ => True
  end.

Fixpoint slew_chain (prev : f32) (outs : list f32) : Prop :=
  match outs with
  | [] => True
  | x :: xs => slew_step prev x /\ slew_chain x xs
  end.

(** The range the simulated temperature keeps: from the ambient 20 to the
    temperature at which heating at full output and cooling balance,
    [20 + 40000 / 17] (about 2373), widened by what the rounding of the
    plant update can add. *)
Definition TEMP_FLOOR : Q := 199 # 10.
Definition TEMP_CEILING : Q := 2374.

(** What the rounding of one plant update can add to its exact result,
    for temperatures within that range. *)
Definition PLANT_ROUNDING : Q := 1 # 512.

Definition temp_inv (st : State) : Prop :=
  nan_or_within TEMP_FLOOR TEMP_CEILING (current_temp st) /\
  nan_or_within 0 6000 (pwm_output st).

End Binary32.

(* ------------------------------------------------------------------------- *)
(** ** Predicates and abbreviations of the statements *)
(* ------------------------------------------------------------------------- *)


(** The state the gain branch leaves: new gains, integral cleared. *)
Definition with_gains (g : Q * Q * Q) (st : State) : State :=
  let '(new_kp, new_ki, new_kd) := g in
  {| kp := new_kp; ki := new_ki; kd := new_kd;
     setpoint := setpoint st; current_temp := current_temp st;
     pwm_output := pwm_output st;
     prev_pwm_output := prev_pwm_output st;
     prev_error := prev_error st;
     integral := 0;
     last_control_time := last_control_time st;
     timestamp_ms := timestamp_ms st |}.

(** The state the [RESET] branch leaves. *)
Definition with_reset (st : State) : State :=
  {| kp := 1; ki := 0.1; kd := 0.05;
     setpoint := setpoint st; current_temp := 20;
     pwm_output := 0;
     prev_pwm_output := prev_pwm_output st;
     prev_error := prev_error st;
     integral := 0;
     last_control_time := last_control_time st;
     timestamp_ms := timestamp_ms st |}.

(** The confirmation the gain branch prints. *)
Definition pid_updated (st : State) : list serial_out :=
  [ print_str "# PID Updated: P="; print_float (kp st) 3;
    print_str " I="; print_float (ki st) 3;
    print_str " D="; println_float (kd st) 3 ].

(** The state after one control step from power-up: the error is 80, the
    integral 4 and the output 160.4. *)
Definition stepped_state : State := computePID init_state.

(** No gain is found in the parameter text: none of the markers occurs, and
    the positional form does not apply. *)
Definition no_field_parses (params : string) : Prop :=
  (WString.indexOf params "P:" < 0)%Z /\
  (WString.indexOf params "I:" < 0)%Z /\
  (WString.indexOf params "D:" < 0)%Z /\
  ~ ((WString.indexOf params ":" < 0)%Z /\
     (WString.indexOf params " " > 0)%Z /\
     (WString.lastIndexOf params " " > WString.indexOf params " ")%Z).

(** Splitting on spaces, for the specification's "space-separated tokens":
    the maximal runs of characters other than the space. *)
Fixpoint spec_tokens_from (s cur : string) : list string :=
  match s with
  | EmptyString => match cur with EmptyString => [] | _ => [cur] end
  | String c s' =>
      if Ascii.eqb c " " then
        match cur with
        | EmptyString => spec_tokens_from s' EmptyString
        | _ => cur :: spec_tokens_from s' EmptyString
        end
      else spec_tokens_from s' (cur ++ String c EmptyString)
  end.

Definition spec_tokens (s : string) : list string :=
  spec_tokens_from s EmptyString.

(** The PID sum of [computePID], before the rate limit and the range
    limit are applied to it. *)
Definition pid_raw (st : State) : Q :=
  let error := setpoint st - current_temp st in
  let integral2 := constrain (integral st + error * interval_s) (-100) 100 in
  let derivative := (error - prev_error st) / interval_s in
  kp st * error + ki st * integral2 + kd st * derivative.

(** The two time stamps agree and are [unsigned long] values. *)
Definition time_inv (st : State) : Prop :=
  (timestamp_ms st = last_control_time st /\
   0 <= last_control_time st < 2 ^ 32)%Z.

(** An output event that may open a line: the time stamp of a telemetry
    record, or a text that starts with [#]. *)
Definition starts_line (e : serial_out) : bool :=
  match e with
  | print_ulong _ => true
  | print_str s | println_str s => String.prefix "#" s
  | print_float _ _ | println_float _ _ => false
  end.

Definition ends_line (e : serial_out) : bool :=
  match e with
  | println_str _ | println_float _ _ => true
  | print_str _ | print_ulong _ | print_float _ _ => false
  end.

(** [out] is a sequence of whole lines, each opened by a time stamp or by
    [#]; [at_start] tells whether [out] begins at the start of a line. *)
Fixpoint framed (at_start : bool) (out : list serial_out) : bool :=
  match out with
  | [] => at_start
  | e :: rest =>
      (if at_start then starts_line e else true) && framed (ends_line e) rest
  end.

(** All characters of [s] are white space. *)
Fixpoint all_space (s : string) : bool :=
  match s with
  | EmptyString => true
  | String c s' => WString.isspace c && all_space s'
  end.

(** The character [c] does not occur in [s]. *)
Fixpoint free_of (c : ascii) (s : string) : bool :=
  match s with
  | EmptyString => true
  | String a s' => negb (Ascii.eqb a c) && free_of c s'
  end.

(** No character of [s] is white space. *)
Fixpoint no_space (s : string) : bool :=
  match s with
  | EmptyString => true
  | String a s' => negb (WString.isspace a) && no_space s'
  end.

(* ------------------------------------------------------------------------- *)
(** ** Comparisons *)
(* ------------------------------------------------------------------------- *)

Lemma Qltb_true (x y : Q) : Qltb x y = true -> x < y.
Proof.
  unfold Qltb. intros H. apply negb_true_iff in H.
  apply Qnot_le_lt. intros Hle. apply Qle_bool_iff in Hle. congruence.
Qed.

Lemma Qltb_false (x y : Q) : Qltb x y = false -> y <= x.
Proof.
  unfold Qltb. intros H. apply negb_false_iff in H.
  now apply Qle_bool_iff.
Qed.


(* ------------------------------------------------------------------------- *)
(** ** Strings *)
(* ------------------------------------------------------------------------- *)

Lemma prefix_nil (s : string) : String.prefix "" s = true.
Proof. destruct s; reflexivity. Qed.

Lemma prefix_cons (a b : ascii) (p s : string) :
  String.prefix (String a p) (String b s) =
  if ascii_dec a b then String.prefix p s else false.
Proof. reflexivity. Qed.

Lemma strstr_cons (a : ascii) (s pat : string) :
  WString.strstr (String a s) pat =
  if String.prefix pat (String a s) then Some O
  else option_map S (WString.strstr s pat).
Proof. reflexivity. Qed.

Lemma prefix_app_left (p q s : string) :
  String.prefix (p ++ q) s = true -> String.prefix p s = true.
Proof.
  revert s. induction p as [|a p IH]; intros s H.
  - apply prefix_nil.
  - destruct s as [|b s]; [discriminate|].
    change (String a p ++ q) with (String a (p ++ q)) in H.
    rewrite prefix_cons in *.
    destruct (ascii_dec a b); [now apply IH | discriminate].
Qed.

Lemma startsWith_SETPOINT_SET (command : string) :
  WString.startsWith command "SETPOINT" = true ->
  WString.startsWith command "SET" = true.
Proof. unfold WString.startsWith. apply (prefix_app_left "SET" "POINT"). Qed.

(** A text without [":"] has no two-character marker ending in [":"]. *)
Lemma strstr_no_colon_no_marker (c : ascii) (s : string) :
  WString.strstr s ":" = None -> WString.strstr s (String c ":") = None.
Proof.
  induction s as [|a s IH]; intros H.
  - reflexivity.
  - rewrite strstr_cons, prefix_cons in *.
    rewrite prefix_nil in H.
    destruct (ascii_dec ":" a) as [Ha|Ha]; [discriminate|].
    destruct (WString.strstr s ":") eqn:Hs; [discriminate|].
    rewrite (IH eq_refl).
    destruct (ascii_dec c a); [|reflexivity].
    destruct s as [|b s]; [reflexivity|].
    rewrite strstr_cons, prefix_cons, prefix_nil in Hs.
    rewrite prefix_cons, prefix_nil.
    destruct (ascii_dec ":" b); [discriminate|reflexivity].
Qed.

Lemma indexOf_no_colon_no_marker (c : ascii) (s : string) :
  (WString.indexOf s ":" < 0)%Z -> (WString.indexOf s (String c ":") < 0)%Z.
Proof.
  unfold WString.indexOf, WString.indexOfFrom.
  destruct ((0 <? 0)%Z || (WString.len s <=? 0)%Z)%bool; [lia|].
  cbn [Z.to_nat WString.drop].
  destruct (WString.strstr s ":") eqn:Hs; [lia|].
  rewrite (strstr_no_colon_no_marker c s Hs). lia.
Qed.

(* ------------------------------------------------------------------------- *)
(** ** The command handler: which branch, and what it leaves alone *)
(* ------------------------------------------------------------------------- *)

(** The [SETPOINT] branch is tested after the [SET] branch, which takes
    every line that starts with [SETPOINT]. *)
Lemma dispatch_not_setpoint (command : string) : dispatch command <> BrSetpoint.
Proof.
  unfold dispatch.
  destruct (WString.startsWith command "SET") eqn:Hset; cbn [orb].
  - discriminate.
  - destruct (WString.startsWith command "PID"); [discriminate|].
    destruct (WString.startsWith command "SETPOINT") eqn:Hsp.
    + apply startsWith_SETPOINT_SET in Hsp. congruence.
    + destruct (String.eqb command "RESET"); [discriminate|].
      destruct (String.eqb command "STATUS"); discriminate.
Qed.

Lemma gains_branch (line : string) (st : State) :
  dispatch (WString.trim line) = BrGains ->
  processSerialCommand (Some line) st =
  let st' :=
    with_gains (parse_gains (gain_params (WString.trim line))
                  (kp st, ki st, kd st)) st in
  (st', pid_updated st').
Proof.
  intros Hd. unfold processSerialCommand.
  destruct (WString.len (WString.trim line) =? 0)%Z eqn:Hlen.
  - exfalso. unfold WString.len in Hlen.
    destruct (WString.trim line); [discriminate Hd | discriminate Hlen].
  - rewrite Hd.
    destruct (parse_gains _ _) as [[new_kp new_ki] new_kd]. reflexivity.
Qed.

Lemma reset_branch (line : string) (st : State) :
  dispatch (WString.trim line) = BrReset ->
  processSerialCommand (Some line) st
  = (with_reset st, [println_str "# System Reset"]).
Proof.
  intros Hd. unfold processSerialCommand.
  destruct (WString.len (WString.trim line) =? 0)%Z eqn:Hlen.
  - exfalso. unfold WString.len in Hlen.
    destruct (WString.trim line); [discriminate Hd | discriminate Hlen].
  - rewrite Hd. reflexivity.
Qed.

Lemma with_reset_twice (st : State) : with_reset (with_reset st) = with_reset st.
Proof. destruct st. reflexivity. Qed.

(** What no command touches, and the only two ways it writes [integral] and
    [pwm_output]. *)
Lemma processSerialCommand_frame (input : option string) (st : State) :
  let st' := fst (processSerialCommand input st) in
  setpoint st' = setpoint st /\
  prev_error st' = prev_error st /\
  prev_pwm_output st' = prev_pwm_output st /\
  last_control_time st' = last_control_time st /\
  timestamp_ms st' = timestamp_ms st /\
  (integral st' = integral st \/ integral st' = 0) /\
  (pwm_output st' = pwm_output st \/ pwm_output st' = 0).
Proof.
  destruct input as [line|]; [|cbn; tauto].
  destruct (dispatch (WString.trim line)) eqn:Hd.
  - rewrite (gains_branch line st Hd).
    destruct (parse_gains _ _) as [[new_kp new_ki] new_kd]. cbn. tauto.
  - now destruct (dispatch_not_setpoint (WString.trim line)).
  - unfold processSerialCommand.
    destruct (WString.len _ =? 0)%Z; [cbn; tauto|].
    rewrite Hd. cbn. tauto.
  - unfold processSerialCommand.
    destruct (WString.len _ =? 0)%Z; [cbn; tauto|].
    rewrite Hd. cbn. tauto.
  - unfold processSerialCommand.
    destruct (WString.len _ =? 0)%Z; [cbn; tauto|].
    rewrite Hd. cbn. tauto.
Qed.

(* ------------------------------------------------------------------------- *)
(** ** The main loop: invariants *)
(* ------------------------------------------------------------------------- *)

Lemma loop_fst (now : Z) (input : option string) (st : State) :
  fst (loop now input st) =
  fst (processSerialCommand input
         (if control_due now st
          then updateSimulation (computePID (stamp now st))
          else st)).
Proof.
  unfold loop.
  destruct (control_due now st);
    destruct (processSerialCommand input _); reflexivity.
Qed.

Lemma run_fst_cons (now : Z) (input : option string)
      (rest : list (Z * option string)) (st : State) :
  fst (run ((now, input) :: rest) st) = fst (run rest (fst (loop now input st))).
Proof.
  cbn [run]. destruct (loop now input st) as [st1 out1]; cbn [fst].
  destruct (run rest st1); reflexivity.
Qed.

Section Invariant.

Variable P : State -> Prop.
Hypothesis P_loop :
  forall now input st, P st -> P (fst (loop now input st)).

Lemma run_invariant (passes : list (Z * option string)) :
  forall st, P st -> P (fst (run passes st)).
Proof.
  induction passes as [|[now input] rest IH]; intros st HP.
  - exact HP.
  - rewrite run_fst_cons. apply IH, P_loop, HP.
Qed.

End Invariant.


Lemma loop_setpoint (now : Z) (input : option string) (st : State) :
  setpoint (fst (loop now input st)) = setpoint st.
Proof.
  rewrite loop_fst.
  destruct (processSerialCommand_frame input
              (if control_due now st
               then updateSimulation (computePID (stamp now st)) else st))
    as (Hsp & _).
  rewrite Hsp. destruct (control_due now st); reflexivity.
Qed.

(* ------------------------------------------------------------------------- *)
(** ** Gain lines *)
(* ------------------------------------------------------------------------- *)

Lemma parse_gains_no_field (params : string) (g : Q * Q * Q) :
  no_field_parses params -> parse_gains params g = g.
Proof.
  intros (Hp & Hi & Hd & Hpos). destruct g as [[gp gi] gd].
  unfold parse_gains.
  replace (WString.indexOf params "P:" >=? 0)%Z with false by lia.
  replace (WString.indexOf params "I:" >=? 0)%Z with false by lia.
  replace (WString.indexOf params "D:" >=? 0)%Z with false by lia.
  destruct (WString.indexOf params ":" <? 0)%Z eqn:Hc; [|reflexivity].
  destruct ((WString.indexOf params " " >? 0)%Z
            && (WString.lastIndexOf params " " >? WString.indexOf params " ")%Z)
    eqn:Hg; [|reflexivity].
  exfalso. apply Hpos. apply andb_true_iff in Hg. lia.
Qed.

Lemma parse_gains_colon_form (params : string) (g : Q * Q * Q) :
  (0 <= WString.indexOf params ":")%Z ->
  parse_gains params g =
  (if (WString.indexOf params "P:" >=? 0)%Z
   then marker_value params (WString.indexOf params "P:") else fst (fst g),
   if (WString.indexOf params "I:" >=? 0)%Z
   then marker_value params (WString.indexOf params "I:") else snd (fst g),
   if (WString.indexOf params "D:" >=? 0)%Z
   then marker_value params (WString.indexOf params "D:") else snd g).
Proof.
  intros Hc. destruct g as [[gp gi] gd]. unfold parse_gains.
  replace (WString.indexOf params ":" <? 0)%Z with false by lia.
  reflexivity.
Qed.

Lemma dispatch_gains (command : string) :
  (WString.startsWith command "SET" || WString.startsWith command "PID")%bool
  = true ->
  dispatch command = BrGains.
Proof. unfold dispatch. now intros ->. Qed.

(* ------------------------------------------------------------------------- *)
(** ** The sketch on concrete inputs *)
(* ------------------------------------------------------------------------- *)

Example toFloat_decimal : WString.toFloat "75.5" = 151 # 2.
Proof. reflexivity. Qed.

Example toFloat_prefix : WString.toFloat "1.5 0.2" = 3 # 2.
Proof. reflexivity. Qed.

Example toFloat_no_digit : WString.toFloat "PID" = 0.
Proof. reflexivity. Qed.

Example trim_both_ends :
  WString.trim (String " " (String "009" "RESET  ")) = "RESET".
Proof. reflexivity. Qed.

Example gain_params_SET : gain_params "SET P:2.0 I:0.5" = "P:2.0 I:0.5".
Proof. reflexivity. Qed.

(** A leading [PID] is not cut off the parameter text. *)
Example gain_params_PID : gain_params "PID 1.5 0.2 0.05" = "PID 1.5 0.2 0.05".
Proof. reflexivity. Qed.

Example positional_SET :
  parse_gains (gain_params "SET 1.5 0.2 0.05") (1, 0.1, 0.05)
  = (3 # 2, 1 # 5, 1 # 20).
Proof. reflexivity. Qed.

(** [setup ()] leaves the initialised variables as they are. *)
Example setup_power_up : fst (setup init_state) = init_state.
Proof. reflexivity. Qed.

Example first_control_step :
  pwm_output stepped_state == 160.4 /\
  prev_error stepped_state == 80 /\
  integral stepped_state == 4.
Proof. repeat split; vm_compute; reflexivity. Qed.

(** The control output of a pass is the one its telemetry record carries. *)
Lemma control_output_is_reported (now : Z) (input : option string) (st : State) :
  control_due now st = true ->
  snd (loop now input st)
  = (sendDataToSerial (updateSimulation (computePID (stamp now st)))
     ++ snd (processSerialCommand input
               (updateSimulation (computePID (stamp now st)))))%list /\
  pwm_output (updateSimulation (computePID (stamp now st)))
  = pwm_output (computePID (stamp now st)).
Proof.
  intros Hdue. unfold loop. rewrite Hdue.
  generalize (computePID (stamp now st)). intros c.
  destruct (processSerialCommand input _). split; reflexivity.
Qed.

(* ------------------------------------------------------------------------- *)
(** ** The properties *)
(* ------------------------------------------------------------------------- *)

(** C1 (defect of the code).  A line [SETPOINT:<num>] is meant to overwrite
    the setpoint, and the sketch has a branch that does so; but the line also
    starts with [SET], and that test comes first.  So [SETPOINT:75.5] is
    handled as a gain line in which no gain is found: from any state the
    setpoint is left as it was (100 from power-up, not 75.5), the integral is
    cleared and the [# PID Updated] confirmation is printed.  A [SETPOINT]
    line without [:] is handled the same way, so it does change the state
    when the integral is not zero. *)
Theorem setpoint_line_handled_as_gain_line :
  (forall st : State,
      processSerialCommand (Some "SETPOINT:75.5") st
      = (with_gains (kp st, ki st, kd st) st, pid_updated st)) /\
  setpoint (fst (processSerialCommand (Some "SETPOINT:75.5") init_state)) = 100 /\
  (forall st : State,
      processSerialCommand (Some "SETPOINT 75.5") st
      = (with_gains (kp st, ki st, kd st) st, pid_updated st)) /\
  integral stepped_state == 4 /\
  integral (fst (processSerialCommand (Some "SETPOINT 75.5") stepped_state)) = 0.
Proof.
  split; [intros st; reflexivity|].
  split; [reflexivity|].
  split; [intros st; reflexivity|].
  split; [vm_compute; reflexivity | reflexivity].
Qed.

(** C2, as stated, fails: the line [SET 1.5] starts with [SET], its
    parameter text [1.5] has no [:] and is one token, not three; yet
    handling it clears the integral (4 before, 0 after) and prints a
    report. *)
Lemma malformed_gain_line_changes_state :
  dispatch (WString.trim "SET 1.5") = BrGains /\
  (WString.indexOf (gain_params (WString.trim "SET 1.5")) ":" < 0)%Z /\
  spec_tokens (gain_params (WString.trim "SET 1.5")) = ["1.5"] /\
  integral stepped_state == 4 /\
  integral (fst (processSerialCommand (Some "SET 1.5") stepped_state)) == 0 /\
  processSerialCommand (Some "SET 1.5") stepped_state <> (stepped_state, []) /\
  snd (processSerialCommand (Some "SET 1.5") stepped_state)
  = pid_updated stepped_state.
Proof.
  repeat split; vm_compute; congruence.
Qed.

(** C2 (amended).  For a line that starts with [SET] or [PID] and whose
    parameter text has no [:] and fails the positional test (there is no
    space after a non-empty first token, or the first space is also the
    last), the gains, the setpoint, the plant state, the previous error and
    the previous output are unchanged; the integral is set to 0 and the
    [# PID Updated] confirmation is printed. *)
Theorem malformed_positional_line_keeps_gains (line : string) (st : State) :
  dispatch (WString.trim line) = BrGains ->
  (WString.indexOf (gain_params (WString.trim line)) ":" < 0)%Z ->
  ~ ((WString.indexOf (gain_params (WString.trim line)) " " > 0)%Z /\
     (WString.lastIndexOf (gain_params (WString.trim line)) " "
      > WString.indexOf (gain_params (WString.trim line)) " ")%Z) ->
  processSerialCommand (Some line) st
  = (with_gains (kp st, ki st, kd st) st, pid_updated st).
Proof.
  intros Hd Hc Hpos. rewrite (gains_branch line st Hd).
  rewrite parse_gains_no_field; [reflexivity|].
  repeat split; try (now apply indexOf_no_colon_no_marker).
  tauto.
Qed.

Lemma malformed_positional_line_keeps_gains_witness :
  processSerialCommand (Some "SET 1.5") stepped_state
  = (with_gains (kp stepped_state, ki stepped_state, kd stepped_state)
       stepped_state,
     pid_updated stepped_state).
Proof.
  apply (malformed_positional_line_keeps_gains "SET 1.5" stepped_state).
  - reflexivity.
  - vm_compute. reflexivity.
  - vm_compute. intros [H _]. discriminate H.
Defined.

(** C3 (defect of the code).  [RESET] restores the three gains and clears
    the integral, the temperature and the PWM output, but it assigns neither
    [prev_error] nor [prev_pwm_output]: both keep the values of the last
    control step.  After one control step from power-up they are 80 and
    160.4, and they still are after [RESET].  [setup ()], which initialises
    the same variables, does clear [prev_error]. *)
Theorem reset_keeps_previous_error_and_output :
  (forall st : State,
      let st' := fst (processSerialCommand (Some "RESET") st) in
      kp st' = 1 /\ ki st' = 0.1 /\ kd st' = 0.05 /\
      integral st' = 0 /\ current_temp st' = 20 /\ pwm_output st' = 0 /\
      prev_error st' = prev_error st /\
      prev_pwm_output st' = prev_pwm_output st) /\
  prev_error (fst (processSerialCommand (Some "RESET") stepped_state)) == 80 /\
  prev_pwm_output (fst (processSerialCommand (Some "RESET") stepped_state))
  == 160.4 /\
  (forall st : State, prev_error (fst (setup st)) = 0).
Proof.
  split.
  - intros st. cbv zeta.
    assert (Hd : dispatch (WString.trim "RESET") = BrReset) by reflexivity.
    rewrite (reset_branch "RESET" st Hd). cbn.
    repeat split; reflexivity.
  - split; [vm_compute; reflexivity|].
    split; [vm_compute; reflexivity|].
    intros st. reflexivity.
Qed.

(** C7.  A line that takes the gain branch leaves the integral at 0 whatever
    it was, and leaves the previous error, the previous output and every
    other variable but the three gains as they were. *)
Theorem gain_update_clears_integral_only (line : string) (st : State) :
  dispatch (WString.trim line) = BrGains ->
  let st' := fst (processSerialCommand (Some line) st) in
  integral st' = 0 /\
  prev_error st' = prev_error st /\
  prev_pwm_output st' = prev_pwm_output st /\
  setpoint st' = setpoint st /\
  current_temp st' = current_temp st /\
  pwm_output st' = pwm_output st /\
  last_control_time st' = last_control_time st /\
  timestamp_ms st' = timestamp_ms st.
Proof.
  intros Hd. rewrite (gains_branch line st Hd). cbv zeta.
  destruct (parse_gains _ _) as [[new_kp new_ki] new_kd].
  cbn. repeat split; reflexivity.
Qed.

Lemma gain_update_clears_integral_only_witness :
  integral (fst (processSerialCommand (Some "SET P:2.0 I:0.5") stepped_state))
  = 0 /\
  prev_error (fst (processSerialCommand (Some "SET P:2.0 I:0.5") stepped_state))
  = prev_error stepped_state.
Proof.
  destruct (gain_update_clears_integral_only "SET P:2.0 I:0.5" stepped_state)
    as (Hi & He & _).
  - reflexivity.
  - split; [exact Hi | exact He].
Defined.

(** C8.  In the colon form (the parameter text contains [:]) each gain
    whose marker occurs takes the value after the marker, and each gain whose
    marker does not occur keeps its value.  [SET P:2.0 I:0.5] sets [kp] to 2
    and [ki] to 1/2 and leaves [kd], from any state. *)
Theorem colon_form_updates_present_fields_only :
  (forall (line : string) (st : State),
      dispatch (WString.trim line) = BrGains ->
      (0 <= WString.indexOf (gain_params (WString.trim line)) ":")%Z ->
      let params := gain_params (WString.trim line) in
      let st' := fst (processSerialCommand (Some line) st) in
      ((WString.indexOf params "P:" < 0)%Z -> kp st' = kp st) /\
      ((WString.indexOf params "I:" < 0)%Z -> ki st' = ki st) /\
      ((WString.indexOf params "D:" < 0)%Z -> kd st' = kd st) /\
      ((0 <= WString.indexOf params "P:")%Z ->
       kp st' = marker_value params (WString.indexOf params "P:")) /\
      ((0 <= WString.indexOf params "I:")%Z ->
       ki st' = marker_value params (WString.indexOf params "I:")) /\
      ((0 <= WString.indexOf params "D:")%Z ->
       kd st' = marker_value params (WString.indexOf params "D:"))) /\
  (forall st : State,
      processSerialCommand (Some "SET P:2.0 I:0.5") st
      = (with_gains (2, 1 # 2, kd st) st,
         pid_updated (with_gains (2, 1 # 2, kd st) st))).
Proof.
  split.
  - intros line st Hd Hc. cbv zeta.
    rewrite (gains_branch line st Hd). cbv zeta.
    rewrite (parse_gains_colon_form _ _ Hc). cbn.
    repeat split; intros H.
    + replace (_ >=? 0)%Z with false by lia. reflexivity.
    + replace (_ >=? 0)%Z with false by lia. reflexivity.
    + replace (_ >=? 0)%Z with false by lia. reflexivity.
    + replace (_ >=? 0)%Z with true by lia. reflexivity.
    + replace (_ >=? 0)%Z with true by lia. reflexivity.
    + replace (_ >=? 0)%Z with true by lia. reflexivity.
  - intros st. reflexivity.
Qed.

Lemma colon_form_updates_present_fields_only_witness :
  kd (fst (processSerialCommand (Some "SET P:2.0 I:0.5") init_state))
  = kd init_state /\
  kp (fst (processSerialCommand (Some "SET P:2.0 I:0.5") init_state))
  = marker_value "P:2.0 I:0.5" 0.
Proof.
  destruct (proj1 colon_form_updates_present_fields_only
              "SET P:2.0 I:0.5" init_state)
    as (_ & _ & Hkd & Hkp & _).
  - reflexivity.
  - vm_compute. discriminate.
  - split.
    + apply Hkd. vm_compute. reflexivity.
    + apply Hkp. vm_compute. discriminate.
Defined.

(** C9.  [RESET] is idempotent: from any state, handling it twice leaves the
    state that handling it once leaves, in every variable. *)
Theorem reset_idempotent (st : State) :
  fst (processSerialCommand (Some "RESET")
         (fst (processSerialCommand (Some "RESET") st)))
  = fst (processSerialCommand (Some "RESET") st).
Proof.
  assert (Hd : dispatch (WString.trim "RESET") = BrReset) by reflexivity.
  rewrite !(reset_branch "RESET" _ Hd). cbn [fst].
  apply with_reset_twice.
Qed.

(** C10.  Every line that, once trimmed, starts with [SET] or [PID] takes
    the gain branch: the integral is set to 0, the confirmation
    [# PID Updated] is printed with the resulting gains, the setpoint is
    left alone, and the gains keep their values when no field is found.
    [SETPOINT:75.5] and [SET garbage] are such lines.  A line starting with
    [SETPOINT] always takes the gain branch, no line takes the setpoint
    branch, no command changes the setpoint, and after any passes of the main
    loop from power-up the setpoint is its initial value, 100. *)
Theorem set_prefixed_lines_are_gain_updates :
  (forall (line : string) (st : State),
      (WString.startsWith (WString.trim line) "SET"
       || WString.startsWith (WString.trim line) "PID")%bool = true ->
      let st' := fst (processSerialCommand (Some line) st) in
      integral st' = 0 /\
      setpoint st' = setpoint st /\
      snd (processSerialCommand (Some line) st) = pid_updated st' /\
      (no_field_parses (gain_params (WString.trim line)) ->
       kp st' = kp st /\ ki st' = ki st /\ kd st' = kd st)) /\
  (forall st : State,
      processSerialCommand (Some "SETPOINT:75.5") st
      = (with_gains (kp st, ki st, kd st) st, pid_updated st)) /\
  (forall st : State,
      processSerialCommand (Some "SET garbage") st
      = (with_gains (kp st, ki st, kd st) st, pid_updated st)) /\
  (forall command : string,
      WString.startsWith command "SETPOINT" = true ->
      dispatch command = BrGains) /\
  (forall command : string, dispatch command <> BrSetpoint) /\
  (forall (input : option string) (st : State),
      setpoint (fst (processSerialCommand input st)) = setpoint st) /\
  (forall passes : list (Z * option string),
      setpoint (fst (run passes init_state)) = 100).
Proof.
  split; [|split; [|split; [|split; [|split; [|split]]]]].
  - intros line st Hsw. cbv zeta.
    rewrite (gains_branch line st (dispatch_gains _ Hsw)). cbv zeta.
    cbn [fst snd].
    split; [|split; [|split]].
    + destruct (parse_gains _ _) as [[new_kp new_ki] new_kd]. reflexivity.
    + destruct (parse_gains _ _) as [[new_kp new_ki] new_kd]. reflexivity.
    + reflexivity.
    + intros Hno. rewrite (parse_gains_no_field _ _ Hno).
      repeat split; reflexivity.
  - intros st. reflexivity.
  - intros st. reflexivity.
  - intros command Hsp. apply dispatch_gains.
    now rewrite (startsWith_SETPOINT_SET command Hsp).
  - exact dispatch_not_setpoint.
  - intros input st. exact (proj1 (processSerialCommand_frame input st)).
  - intros passes.
    apply (run_invariant (fun st => setpoint st = 100)); [|reflexivity].
    intros now input st H. now rewrite loop_setpoint.
Qed.

Lemma set_prefixed_lines_are_gain_updates_witness :
  integral (fst (processSerialCommand (Some "SET garbage") stepped_state)) = 0 /\
  kp (fst (processSerialCommand (Some "SET garbage") stepped_state))
  = kp stepped_state /\
  dispatch "SETPOINT:75.5" = BrGains.
Proof.
  destruct (proj1 set_prefixed_lines_are_gain_updates
              "SET garbage" stepped_state) as (Hi & _ & _ & Hg).
  - reflexivity.
  - split; [exact Hi|]. split.
    + apply Hg. unfold no_field_parses. vm_compute.
      repeat split; try reflexivity. intros (_ & H & _). discriminate H.
    + apply (proj1 (proj2 (proj2 (proj2 set_prefixed_lines_are_gain_updates)))).
      reflexivity.
Defined.

(* ------------------------------------------------------------------------- *)
(** ** Further properties of the control step *)
(* ------------------------------------------------------------------------- *)






(** What the control step leaves alone. *)
Lemma computePID_frame (st : State) :
  kp (computePID st) = kp st /\
  ki (computePID st) = ki st /\
  kd (computePID st) = kd st /\
  setpoint (computePID st) = setpoint st /\
  current_temp (computePID st) = current_temp st /\
  timestamp_ms (computePID st) = timestamp_ms st.
Proof. repeat split; reflexivity. Qed.

(* ------------------------------------------------------------------------- *)
(** ** Further properties of the main loop *)
(* ------------------------------------------------------------------------- *)

Lemma control_due_elapsed (now : Z) (st : State) :
  control_due now st
  = (((now - last_control_time st) mod 2 ^ 32) >=? CONTROL_INTERVAL_MS)%Z.
Proof.
  unfold control_due, ulong. now rewrite Zminus_mod_idemp_l.
Qed.

(** X5.  The control period is measured correctly across the wrap of
    [millis ()]: [e] milliseconds after the last control step, with [e]
    below 2^32, the step is due exactly when [e] is at least 50, whatever
    the time of the last step and however often the counter has wrapped. *)
Theorem control_due_after_elapsed (st : State) (e : Z) :
  (0 <= e < 2 ^ 32)%Z ->
  control_due (last_control_time st + e) st = (50 <=? e)%Z.
Proof.
  intros He. rewrite control_due_elapsed.
  replace (last_control_time st + e - last_control_time st)%Z with e by lia.
  rewrite Z.mod_small by exact He.
  unfold CONTROL_INTERVAL_MS. lia.
Qed.

Lemma control_due_after_elapsed_witness :
  control_due (4294967290 + 50)
    {| kp := 1; ki := 0.1; kd := 0.05;
       setpoint := 100; current_temp := 20; pwm_output := 0;
       prev_pwm_output := 0; prev_error := 0; integral := 0;
       last_control_time := 4294967290; timestamp_ms := 4294967290 |}
  = true.
Proof.
  exact (control_due_after_elapsed
           {| kp := 1; ki := 0.1; kd := 0.05;
              setpoint := 100; current_temp := 20; pwm_output := 0;
              prev_pwm_output := 0; prev_error := 0; integral := 0;
              last_control_time := 4294967290; timestamp_ms := 4294967290 |}
           50 ltac:(lia)).
Defined.

Lemma processSerialCommand_times (input : option string) (st : State) :
  last_control_time (fst (processSerialCommand input st)) = last_control_time st
  /\ timestamp_ms (fst (processSerialCommand input st)) = timestamp_ms st.
Proof.
  destruct (processSerialCommand_frame input st) as (_ & _ & _ & Hl & Ht & _).
  split; assumption.
Qed.

Lemma loop_times (now : Z) (input : option string) (st : State) :
  last_control_time (fst (loop now input st))
  = (if control_due now st then ulong now else last_control_time st) /\
  timestamp_ms (fst (loop now input st))
  = (if control_due now st then ulong now else timestamp_ms st).
Proof.
  rewrite loop_fst.
  destruct (processSerialCommand_times input
              (if control_due now st
               then updateSimulation (computePID (stamp now st)) else st))
    as [Hl Ht].
  rewrite Hl, Ht. destruct (control_due now st); split; reflexivity.
Qed.

Lemma loop_time_inv (now : Z) (input : option string) (st : State) :
  time_inv st -> time_inv (fst (loop now input st)).
Proof.
  unfold time_inv. intros [Heq Hr].
  destruct (loop_times now input st) as [-> ->].
  destruct (control_due now st).
  - split; [reflexivity|]. unfold ulong. apply Z.mod_pos_bound. lia.
  - split; assumption.
Qed.

(** X6.  The two time stamps stay equal and within the [unsigned long]
    range along any passes from power-up, and a pass in which the control
    step runs leaves both at the time of the pass, reduced modulo 2^32. *)
Theorem time_stamps_agree :
  (forall passes : list (Z * option string),
      time_inv (fst (run passes init_state))) /\
  (forall (now : Z) (input : option string) (st : State),
      control_due now st = true ->
      last_control_time (fst (loop now input st)) = (now mod 2 ^ 32)%Z /\
      timestamp_ms (fst (loop now input st)) = (now mod 2 ^ 32)%Z).
Proof.
  split.
  - intros passes.
    apply (run_invariant time_inv loop_time_inv passes init_state).
    split; [reflexivity|]. cbn. lia.
  - intros now input st Hdue.
    destruct (loop_times now input st) as [-> ->].
    rewrite Hdue. split; reflexivity.
Qed.

Lemma time_stamps_agree_witness :
  last_control_time (fst (loop (2 ^ 32 + 60) None init_state)) = 60%Z.
Proof.
  apply (proj2 time_stamps_agree (2 ^ 32 + 60)%Z None init_state).
  reflexivity.
Defined.

(** X7.  A pass in which the control step is due and no line is waiting
    prints exactly one telemetry record: the time of the pass, the setpoint,
    the temperature after the plant update, the new control output, the
    error against that updated temperature (not the error the controller
    used), and the three gains.  A pass in which the step is not due and no
    line is waiting prints nothing and changes nothing. *)
Theorem pass_without_input (now : Z) (st : State) :
  (control_due now st = true ->
   let out := pwm_output (computePID (stamp now st)) in
   let temp := current_temp st
               + (out / 255 * 2 - (current_temp st - 20) * 0.02) in
   snd (loop now None st)
   = [ print_ulong (now mod 2 ^ 32); print_str ",";
       print_float (setpoint st) 2; print_str ",";
       print_float temp 2; print_str ",";
       print_float out 2; print_str ",";
       print_float (setpoint st - temp) 2; print_str ",";
       print_float (kp st) 3; print_str ",";
       print_float (ki st) 3; print_str ",";
       println_float (kd st) 3 ]) /\
  (control_due now st = false -> loop now None st = (st, [])).
Proof.
  split; intros Hdue.
  - cbv zeta. unfold loop. rewrite Hdue.
    destruct (computePID_frame (stamp now st))
      as (Hkp & Hki & Hkd & Hsp & Htemp & Hts).
    cbn [stamp kp ki kd setpoint current_temp timestamp_ms] in *.
    revert Hkp Hki Hkd Hsp Htemp Hts.
    generalize (computePID (stamp now st)). intros c.
    intros Hkp Hki Hkd Hsp Htemp Hts.
    cbn [processSerialCommand snd]. rewrite app_nil_r.
    unfold sendDataToSerial, updateSimulation.
    cbn [kp ki kd setpoint current_temp pwm_output timestamp_ms].
    rewrite Hkp, Hki, Hkd, Hsp, Htemp, Hts. reflexivity.
  - unfold loop. rewrite Hdue. reflexivity.
Qed.

Lemma pass_without_input_witness :
  loop 30 None init_state = (init_state, []).
Proof.
  apply (proj2 (pass_without_input 30 init_state)). reflexivity.
Defined.

Lemma loop_gains_without_input (now : Z) (st : State) :
  kp (fst (loop now None st)) = kp st /\
  ki (fst (loop now None st)) = ki st /\
  kd (fst (loop now None st)) = kd st.
Proof.
  rewrite loop_fst. cbn [processSerialCommand fst].
  destruct (control_due now st); repeat split; reflexivity.
Qed.

(** X8.  The control step and the plant never write the gains: along passes
    in which no line arrives, [kp], [ki] and [kd] keep their values. *)
Theorem gains_change_only_by_command
        (passes : list (Z * option string)) (st : State) :
  Forall (fun pass => snd pass = None) passes ->
  kp (fst (run passes st)) = kp st /\
  ki (fst (run passes st)) = ki st /\
  kd (fst (run passes st)) = kd st.
Proof.
  intros Hnone. revert st.
  induction Hnone as [|[now input] rest Hin _ IH]; intros st.
  - repeat split; reflexivity.
  - cbn [snd] in Hin. subst input. rewrite run_fst_cons.
    destruct (IH (fst (loop now None st))) as (-> & -> & ->).
    apply loop_gains_without_input.
Qed.

Lemma gains_change_only_by_command_witness :
  kp (fst (run [(50, None); (100, None)]%Z stepped_state)) = kp stepped_state.
Proof.
  apply (gains_change_only_by_command [(50, None); (100, None)]%Z
           stepped_state).
  repeat constructor.
Defined.

Lemma framed_app (b : bool) (out1 out2 : list serial_out) :
  framed b out1 = true -> framed true out2 = true ->
  framed b (out1 ++ out2) = true.
Proof.
  revert b. induction out1 as [|e rest IH]; intros b H1 H2.
  - cbn in *. now subst b.
  - cbn [framed app] in *. apply andb_true_iff in H1 as [He Hrest].
    rewrite He. cbn [andb]. now apply IH.
Qed.

Lemma processSerialCommand_framed (input : option string) (st : State) :
  framed true (snd (processSerialCommand input st)) = true.
Proof.
  destruct input as [line|]; [|reflexivity].
  destruct (dispatch (WString.trim line)) eqn:Hd.
  - rewrite (gains_branch line st Hd). reflexivity.
  - now destruct (dispatch_not_setpoint (WString.trim line)).
  - rewrite (reset_branch line st Hd). reflexivity.
  - unfold processSerialCommand.
    destruct (WString.len _ =? 0)%Z; [reflexivity|].
    rewrite Hd. reflexivity.
  - unfold processSerialCommand.
    destruct (WString.len _ =? 0)%Z; [reflexivity|].
    rewrite Hd. reflexivity.
Qed.

Lemma loop_framed (now : Z) (input : option string) (st : State) :
  framed true (snd (loop now input st)) = true.
Proof.
  unfold loop.
  destruct (control_due now st).
  - pose proof (processSerialCommand_framed input
                  (updateSimulation (computePID (stamp now st)))) as H.
    destruct (processSerialCommand input _) as [st2 out2]. cbn [snd] in *.
    now apply framed_app.
  - pose proof (processSerialCommand_framed input st) as H.
    destruct (processSerialCommand input st) as [st2 out2]. exact H.
Qed.

(** X9.  Whatever the sketch prints is a sequence of whole lines, and every
    line opens either with the time stamp of a telemetry record or with
    [#]: the banner of [setup ()], and the output of any passes of the main
    loop from any state and with any lines received.  A reader of the port
    can tell a telemetry record from a message by the first character. *)
Theorem serial_output_is_framed :
  (forall st : State, framed true (snd (setup st)) = true) /\
  (forall (passes : list (Z * option string)) (st : State),
      framed true (snd (run passes st)) = true).
Proof.
  split; [intros st; reflexivity|].
  induction passes as [|[now input] rest IH]; intros st.
  - reflexivity.
  - cbn [run].
    pose proof (loop_framed now input st) as H1.
    destruct (loop now input st) as [st1 out1].
    pose proof (IH st1) as H2.
    destruct (run rest st1) as [st2 out2]. cbn [snd] in *.
    now apply framed_app.
Qed.

(* ------------------------------------------------------------------------- *)
(** ** Further properties of the command handler *)
(* ------------------------------------------------------------------------- *)

Lemma skip_space_all_space (s : string) :
  all_space s = true -> WString.skip_space s = "".
Proof.
  induction s as [|c s IH]; intros H; [reflexivity|].
  cbn [all_space] in H. apply andb_true_iff in H as [Hc Hs].
  cbn [WString.skip_space]. rewrite Hc. now apply IH.
Qed.

Lemma skip_space_app_space (pre x : string) :
  all_space pre = true -> WString.skip_space (pre ++ x) = WString.skip_space x.
Proof.
  induction pre as [|c pre IH]; intros H; [reflexivity|].
  cbn [all_space] in H. apply andb_true_iff in H as [Hc Hs].
  cbn [append WString.skip_space]. rewrite Hc. now apply IH.
Qed.

Lemma drop_trailing_space_all_space (s : string) :
  all_space s = true -> WString.drop_trailing_space s = "".
Proof.
  induction s as [|c s IH]; intros H; [reflexivity|].
  cbn [all_space] in H. apply andb_true_iff in H as [Hc Hs].
  cbn [WString.drop_trailing_space]. rewrite (IH Hs), Hc. reflexivity.
Qed.

Lemma drop_trailing_space_app_space (x post : string) :
  all_space post = true ->
  WString.drop_trailing_space (x ++ post) = WString.drop_trailing_space x.
Proof.
  intros H. induction x as [|c x IH].
  - cbn [append]. now apply drop_trailing_space_all_space.
  - cbn [append WString.drop_trailing_space]. now rewrite IH.
Qed.

Lemma trim_app_space (x post : string) :
  all_space post = true -> WString.trim (x ++ post) = WString.trim x.
Proof.
  intros H. unfold WString.trim. induction x as [|c x IH].
  - cbn [append]. now rewrite (skip_space_all_space post H).
  - cbn [append WString.skip_space].
    destruct (WString.isspace c); [exact IH|].
    now apply (drop_trailing_space_app_space (String c x) post).
Qed.

Lemma trim_surrounding_space (pre line post : string) :
  all_space pre = true -> all_space post = true ->
  WString.trim (pre ++ line ++ post) = WString.trim line.
Proof.
  intros Hpre Hpost. unfold WString.trim at 1.
  rewrite (skip_space_app_space pre _ Hpre).
  now apply trim_app_space.
Qed.

(** X10.  White space around a line does not matter: blanks, tabs, a
    trailing carriage return or any other white space before and after a
    line leave the handling of the line as it is. *)
Theorem surrounding_space_is_ignored
        (pre line post : string) (st : State) :
  all_space pre = true -> all_space post = true ->
  processSerialCommand (Some (pre ++ line ++ post)) st
  = processSerialCommand (Some line) st.
Proof.
  intros Hpre Hpost. unfold processSerialCommand.
  now rewrite (trim_surrounding_space pre line post Hpre Hpost).
Qed.

Lemma surrounding_space_is_ignored_witness :
  processSerialCommand (Some ("  " ++ "RESET" ++ String "013" "")) stepped_state
  = processSerialCommand (Some "RESET") stepped_state.
Proof.
  apply (surrounding_space_is_ignored "  " "RESET" (String "013" "")
           stepped_state); reflexivity.
Defined.

(** X11.  A line that is [STATUS] once trimmed changes no variable and
    prints one report line with the three gains, the setpoint and the
    temperature. *)
Theorem status_reads_only (line : string) (st : State) :
  WString.trim line = "STATUS" ->
  processSerialCommand (Some line) st
  = (st,
     [ print_str "# STATUS: Kp="; print_float (kp st) 3;
       print_str " Ki="; print_float (ki st) 3;
       print_str " Kd="; print_float (kd st) 3;
       print_str " Setpoint="; print_float (setpoint st) 2;
       print_str " Temp="; println_float (current_temp st) 2 ]).
Proof.
  intros Htrim. unfold processSerialCommand. rewrite Htrim. reflexivity.
Qed.

Lemma status_reads_only_witness :
  fst (processSerialCommand (Some " STATUS ") stepped_state) = stepped_state.
Proof.
  now rewrite (status_reads_only " STATUS " stepped_state eq_refl).
Defined.

(** X12.  Nothing else is a command: when there is no input, or when the
    trimmed line starts neither with [SET] nor with [PID] and is neither
    [RESET] nor [STATUS] (the empty line and any misspelt or lower-case
    keyword included), the handler changes no variable and prints
    nothing. *)
Theorem other_lines_are_ignored :
  (forall st : State, processSerialCommand None st = (st, [])) /\
  (forall (line : string) (st : State),
      WString.startsWith (WString.trim line) "SET" = false ->
      WString.startsWith (WString.trim line) "PID" = false ->
      WString.trim line <> "RESET" ->
      WString.trim line <> "STATUS" ->
      processSerialCommand (Some line) st = (st, [])).
Proof.
  split; [intros st; reflexivity|].
  intros line st Hset Hpid Hreset Hstatus. unfold processSerialCommand.
  destruct (WString.len (WString.trim line) =? 0)%Z; [reflexivity|].
  assert (Hd : dispatch (WString.trim line) = BrNone).
  { unfold dispatch. rewrite Hset, Hpid. cbn [orb].
    destruct (WString.startsWith (WString.trim line) "SETPOINT") eqn:Hsp.
    - apply startsWith_SETPOINT_SET in Hsp. congruence.
    - apply String.eqb_neq in Hreset, Hstatus.
      now rewrite Hreset, Hstatus. }
  rewrite Hd. reflexivity.
Qed.

Lemma other_lines_are_ignored_witness :
  processSerialCommand (Some "reset") stepped_state = (stepped_state, []).
Proof.
  apply (proj2 other_lines_are_ignored "reset" stepped_state);
    try reflexivity; discriminate.
Defined.

Lemma toFloat_letter_P (s : string) : WString.toFloat (String "P" s) = 0.
Proof. reflexivity. Qed.

Lemma trim_head_P (s : string) :
  exists r, WString.trim (String "P" s) = String "P" r.
Proof.
  unfold WString.trim.
  change (WString.skip_space (String "P" s)) with (String "P" s).
  cbn [WString.drop_trailing_space].
  destruct (WString.drop_trailing_space s) as [|c r].
  - exists "". reflexivity.
  - exists (String c r). reflexivity.
Qed.

Lemma startsWith_PID_shape (command : string) :
  WString.startsWith command "PID" = true ->
  exists s, command = String "P" s /\ WString.startsWith command "SET" = false.
Proof.
  unfold WString.startsWith. intros H.
  destruct command as [|a s]; [discriminate|].
  rewrite prefix_cons in H.
  destruct (ascii_dec "P" a) as [<-|]; [|discriminate].
  exists s. split; reflexivity.
Qed.

Lemma len_cons (c : ascii) (r : string) :
  WString.len (String c r) = (WString.len r + 1)%Z.
Proof. unfold WString.len. cbn [String.length]. lia. Qed.

Lemma len_nonneg (s : string) : (0 <= WString.len s)%Z.
Proof. unfold WString.len. lia. Qed.

Lemma substring_head (c : ascii) (r : string) (n : Z) :
  (0 < n)%Z ->
  exists t, WString.substring (String c r) 0 n = String c t.
Proof.
  intros Hn. unfold WString.substring.
  pose proof (len_cons c r) as Hl. pose proof (len_nonneg r) as Hr.
  replace (n <? 0)%Z with false by lia.
  replace (WString.len (String c r) <=? 0)%Z with false by lia.
  destruct (Z.to_nat (Z.min n (WString.len (String c r)) - 0)) as [|k] eqn:Hk;
    [lia|].
  cbn [Z.to_nat String.substring]. eexists. reflexivity.
Qed.

(** X13.  The positional form does not work with the [PID] keyword: the
    keyword is not cut off the parameter text, so the first token starts with
    [PID] and reads as 0.  Every line that starts with [PID], has no [:] and
    passes the positional test sets [kp] to 0. *)
Theorem positional_PID_line_zeroes_kp (line : string) (st : State) :
  WString.startsWith (WString.trim line) "PID" = true ->
  (WString.indexOf (gain_params (WString.trim line)) ":" < 0)%Z ->
  (WString.indexOf (gain_params (WString.trim line)) " " > 0)%Z ->
  (WString.lastIndexOf (gain_params (WString.trim line)) " "
   > WString.indexOf (gain_params (WString.trim line)) " ")%Z ->
  kp (fst (processSerialCommand (Some line) st)) = 0.
Proof.
  intros Hpid Hc Hs1 Hs2.
  assert (Hd : dispatch (WString.trim line) = BrGains).
  { apply dispatch_gains. rewrite Hpid. apply orb_true_r. }
  rewrite (gains_branch line st Hd). cbv zeta.
  destruct (startsWith_PID_shape _ Hpid) as (s & Hcmd & Hset).
  revert Hc Hs1 Hs2. unfold gain_params. rewrite Hset, Hcmd. cbv iota.
  destruct (trim_head_P s) as (r & ->).
  intros Hc Hs1 Hs2. unfold parse_gains.
  replace (WString.indexOf (String "P" r) ":" <? 0)%Z with true by lia.
  replace ((WString.indexOf (String "P" r) " " >? 0)%Z
           && (WString.lastIndexOf (String "P" r) " "
               >? WString.indexOf (String "P" r) " ")%Z)%bool
    with true by (symmetry; apply andb_true_iff; lia).
  destruct (substring_head "P" r (WString.indexOf (String "P" r) " "))
    as (t & ->); [lia|].
  reflexivity.
Qed.

Lemma positional_PID_line_zeroes_kp_witness :
  kp (fst (processSerialCommand (Some "PID 1.5 0.2 0.05") init_state)) = 0.
Proof.
  apply (positional_PID_line_zeroes_kp "PID 1.5 0.2 0.05" init_state).
  - reflexivity.
  - vm_compute. reflexivity.
  - vm_compute. reflexivity.
  - vm_compute. reflexivity.
Defined.

(* ------------------------------------------------------------------------- *)
(** ** Texts built from tokens *)
(* ------------------------------------------------------------------------- *)

Lemma length_app (a b : string) :
  String.length (a ++ b) = (String.length a + String.length b)%nat.
Proof.
  induction a as [|x a IH]; cbn [append String.length Nat.add]; congruence.
Qed.

Lemma len_app (a b : string) :
  WString.len (a ++ b) = (WString.len a + WString.len b)%Z.
Proof. unfold WString.len. rewrite length_app. lia. Qed.

Lemma length_zero (s : string) : String.length s = O -> s = "".
Proof. destruct s; [reflexivity | discriminate]. Qed.

Lemma app_empty_r (a : string) : a ++ "" = a.
Proof. induction a as [|x a IH]; cbn [append]; congruence. Qed.

Lemma substring_take (m r : string) :
  String.substring 0 (String.length m) (m ++ r) = m.
Proof.
  induction m as [|x m IH]; cbn [append String.length String.substring].
  - destruct r; reflexivity.
  - now rewrite IH.
Qed.

Lemma substring_skip (a r : string) (n k : nat) :
  String.substring (String.length a + n) k (a ++ r) = String.substring n k r.
Proof.
  induction a as [|x a IH]; [reflexivity|].
  cbn [append String.length Nat.add String.substring]. exact IH.
Qed.

Lemma drop_app (a r : string) : WString.drop (String.length a) (a ++ r) = r.
Proof. induction a as [|x a IH]; [destruct r; reflexivity | exact IH]. Qed.

Lemma no_space_free_of (s : string) :
  no_space s = true -> free_of " " s = true.
Proof.
  induction s as [|x s IH]; intros H; [reflexivity|].
  cbn [no_space free_of] in *. apply andb_true_iff in H as [Hx Hs].
  rewrite (IH Hs), andb_true_r.
  destruct (Ascii.eqb_spec x " ") as [->|]; [discriminate Hx | reflexivity].
Qed.

Lemma prefix_char_neq (c x : ascii) (s : string) :
  Ascii.eqb x c = false -> String.prefix (String c "") (String x s) = false.
Proof.
  intros H. rewrite prefix_cons.
  destruct (ascii_dec c x) as [<-|]; [|reflexivity].
  now rewrite Ascii.eqb_refl in H.
Qed.

Lemma prefix_char_eq (c : ascii) (s : string) :
  String.prefix (String c "") (String c s) = true.
Proof.
  rewrite prefix_cons, prefix_nil.
  destruct (ascii_dec c c); [reflexivity | congruence].
Qed.

Lemma strstr_free (c : ascii) (a : string) :
  free_of c a = true -> WString.strstr a (String c "") = None.
Proof.
  induction a as [|x a IH]; intros H; [reflexivity|].
  cbn [free_of] in H. apply andb_true_iff in H as [Hx Ha].
  apply negb_true_iff in Hx.
  rewrite strstr_cons, (prefix_char_neq c x a Hx), (IH Ha). reflexivity.
Qed.

Lemma strstr_after_free (c : ascii) (a r : string) :
  free_of c a = true ->
  WString.strstr (a ++ String c r) (String c "") = Some (String.length a).
Proof.
  induction a as [|x a IH]; intros H.
  - cbn [append]. now rewrite strstr_cons, prefix_char_eq.
  - cbn [free_of] in H. apply andb_true_iff in H as [Hx Ha].
    apply negb_true_iff in Hx. cbn [append].
    rewrite strstr_cons, (prefix_char_neq c x _ Hx), (IH Ha). reflexivity.
Qed.

Lemma last_occurrence_free (c : ascii) (a : string) :
  free_of c a = true -> WString.last_occurrence a (String c "") = None.
Proof.
  induction a as [|x a IH]; intros H; [reflexivity|].
  cbn [free_of] in H. apply andb_true_iff in H as [Hx Ha].
  apply negb_true_iff in Hx.
  cbn [WString.last_occurrence].
  now rewrite (IH Ha), (prefix_char_neq c x a Hx).
Qed.

Lemma last_occurrence_skip (a r pat : string) (k : nat) :
  WString.last_occurrence r pat = Some k ->
  WString.last_occurrence (a ++ r) pat = Some (String.length a + k)%nat.
Proof.
  intros H. induction a as [|x a IH]; [exact H|].
  cbn [append WString.last_occurrence String.length Nat.add].
  now rewrite IH.
Qed.

Lemma last_occurrence_before_free (c : ascii) (z : string) :
  free_of c z = true ->
  WString.last_occurrence (String c z) (String c "") = Some O.
Proof.
  intros H. cbn [WString.last_occurrence].
  now rewrite (last_occurrence_free c z H), prefix_char_eq.
Qed.

Lemma substring_nat (s : string) (i j : nat) :
  (i <= j <= String.length s)%nat -> (i < String.length s)%nat ->
  WString.substring s (Z.of_nat i) (Z.of_nat j) = String.substring i (j - i) s.
Proof.
  intros Hij Hi. unfold WString.substring, WString.len.
  replace (Z.of_nat j <? Z.of_nat i)%Z with false by lia.
  replace (Z.of_nat (String.length s) <=? Z.of_nat i)%Z with false by lia.
  f_equal; lia.
Qed.

Section Positional.

Variables a m c : string.
Hypothesis a_nonempty : a <> "".
Hypothesis a_free : free_of " " a = true.
Hypothesis c_free : free_of " " c = true.

Let text : string := a ++ String " " (m ++ String " " c).

Lemma positional_length :
  String.length text
  = (String.length a + S (String.length m + S (String.length c)))%nat.
Proof.
  unfold text. rewrite length_app. cbn [String.length].
  rewrite length_app. reflexivity.
Qed.

Lemma positional_first_space : WString.indexOf text " " = WString.len a.
Proof.
  unfold WString.indexOf, WString.indexOfFrom.
  assert (Hguard : ((0 <? 0)%Z || (WString.len text <=? 0)%Z)%bool = false).
  { apply orb_false_iff. unfold WString.len. rewrite positional_length.
    split; [reflexivity | apply Z.leb_gt; lia]. }
  rewrite Hguard. cbn [Z.to_nat WString.drop]. unfold text.
  rewrite (strstr_after_free " " a _ a_free). reflexivity.
Qed.

Lemma positional_last_space :
  WString.lastIndexOf text " " = (WString.len a + 1 + WString.len m)%Z.
Proof.
  unfold WString.lastIndexOf.
  assert (Hguard : ((WString.len " " =? 0)%Z || (WString.len text =? 0)%Z
                    || (WString.len text <? WString.len " ")%Z)%bool = false).
  { unfold WString.len. rewrite positional_length. cbn [String.length].
    apply orb_false_iff; split; [apply orb_false_iff; split|].
    - reflexivity.
    - apply Z.eqb_neq. lia.
    - apply Z.ltb_ge. lia. }
  rewrite Hguard. unfold text.
  rewrite (last_occurrence_skip a _ " " (S (String.length m + 0))).
  - unfold WString.len. lia.
  - cbn [WString.last_occurrence].
    rewrite (last_occurrence_skip m _ " " O); [reflexivity|].
    exact (last_occurrence_before_free " " c c_free).
Qed.

Lemma positional_first_token :
  WString.substring text 0 (WString.len a) = a.
Proof.
  unfold WString.len. change 0%Z with (Z.of_nat 0).
  rewrite (substring_nat text 0 (String.length a)).
  - rewrite Nat.sub_0_r. apply substring_take.
  - rewrite positional_length. lia.
  - rewrite positional_length. lia.
Qed.

Lemma positional_middle :
  WString.substring text (WString.len a + 1)
    (WString.len a + 1 + WString.len m) = m.
Proof.
  unfold WString.len.
  replace (Z.of_nat (String.length a) + 1)%Z
    with (Z.of_nat (String.length a + 1)) by lia.
  replace (Z.of_nat (String.length a + 1) + Z.of_nat (String.length m))%Z
    with (Z.of_nat (String.length a + 1 + String.length m)) by lia.
  rewrite substring_nat.
  - replace (String.length a + 1 + String.length m - (String.length a + 1))%nat
      with (String.length m) by lia.
    unfold text. rewrite substring_skip.
    cbn [Nat.add String.substring]. apply substring_take.
  - rewrite positional_length. lia.
  - rewrite positional_length. lia.
Qed.

Lemma positional_last_token :
  WString.substringFrom text (WString.len a + 1 + WString.len m + 1) = c.
Proof.
  unfold WString.substringFrom.
  destruct (Nat.eq_dec (String.length c) 0) as [Hz|Hnz].
  - unfold WString.substring.
    replace (WString.len text
             <? WString.len a + 1 + WString.len m + 1)%Z with false
      by (symmetry; apply Z.ltb_ge; unfold WString.len;
          rewrite positional_length; lia).
    replace (WString.len text
             <=? WString.len a + 1 + WString.len m + 1)%Z with true
      by (symmetry; apply Z.leb_le; unfold WString.len;
          rewrite positional_length; lia).
    symmetry. now apply length_zero.
  - unfold WString.len.
    replace (Z.of_nat (String.length a) + 1 + Z.of_nat (String.length m) + 1)%Z
      with (Z.of_nat (String.length a + S (String.length m + 1))) by lia.
    rewrite substring_nat.
    + rewrite positional_length.
      replace (String.length a
               + S (String.length m + S (String.length c))
               - (String.length a + S (String.length m + 1)))%nat
        with (String.length c) by lia.
      unfold text. rewrite substring_skip.
      cbn [Nat.add String.substring].
      rewrite substring_skip.
      cbn [String.substring].
      rewrite <- (app_empty_r c) at 2.
      apply substring_take.
    + rewrite positional_length. lia.
    + rewrite positional_length. lia.
Qed.

Lemma positional_parse (g : Q * Q * Q) :
  (WString.indexOf text ":" < 0)%Z ->
  parse_gains text g
  = (WString.toFloat a, WString.toFloat m, WString.toFloat c).
Proof.
  intros Hcolon. destruct g as [[gp gi] gd]. unfold parse_gains.
  replace (WString.indexOf text ":" <? 0)%Z with true by lia.
  rewrite positional_last_space, positional_first_space.
  assert (Ha : (0 < WString.len a)%Z).
  { unfold WString.len. destruct a; [congruence|]. cbn [String.length]. lia. }
  pose proof (len_nonneg m) as Hm.
  replace ((WString.len a >? 0)%Z
           && (WString.len a + 1 + WString.len m >? WString.len a)%Z)%bool
    with true by (symmetry; apply andb_true_iff; lia).
  rewrite positional_first_token, positional_middle, positional_last_token.
  reflexivity.
Qed.

End Positional.

Lemma drop_trailing_space_no_space (c : string) :
  no_space c = true -> WString.drop_trailing_space c = c.
Proof.
  induction c as [|y c IH]; intros H; [reflexivity|].
  cbn [no_space] in H. apply andb_true_iff in H as [Hy Hc].
  apply negb_true_iff in Hy.
  cbn [WString.drop_trailing_space]. rewrite (IH Hc).
  destruct c; [now rewrite Hy | reflexivity].
Qed.

Lemma drop_trailing_space_app (x r : string) :
  WString.drop_trailing_space r = r -> r <> "" ->
  WString.drop_trailing_space (x ++ r) = x ++ r /\ x ++ r <> "".
Proof.
  intros Hr Hne. induction x as [|y x [IH IHne]].
  - split; assumption.
  - cbn [append WString.drop_trailing_space]. rewrite IH.
    split; [|discriminate].
    destruct (x ++ r); [congruence | reflexivity].
Qed.

Lemma skip_space_no_space (a r : string) :
  a <> "" -> no_space a = true -> WString.skip_space (a ++ r) = a ++ r.
Proof.
  intros Hne H. destruct a as [|x a]; [congruence|].
  cbn [no_space] in H. apply andb_true_iff in H as [Hx _].
  apply negb_true_iff in Hx.
  cbn [append WString.skip_space]. now rewrite Hx.
Qed.

Lemma substringFrom_skip (a r : string) :
  WString.substringFrom (a ++ r) (WString.len a) = r.
Proof.
  unfold WString.substringFrom.
  destruct (Nat.eq_dec (String.length r) 0) as [Hz|Hnz].
  - unfold WString.substring.
    replace (WString.len (a ++ r) <? WString.len a)%Z with false
      by (symmetry; apply Z.ltb_ge; rewrite len_app; unfold WString.len; lia).
    replace (WString.len (a ++ r) <=? WString.len a)%Z with true
      by (symmetry; apply Z.leb_le; rewrite len_app; unfold WString.len; lia).
    symmetry. now apply length_zero.
  - unfold WString.len. rewrite substring_nat.
    + rewrite length_app.
      replace (String.length a + String.length r - String.length a)%nat
        with (String.length r) by lia.
      rewrite <- (Nat.add_0_r (String.length a)) at 1.
      rewrite substring_skip.
      rewrite <- (app_empty_r r) at 2. apply substring_take.
    + rewrite length_app. lia.
    + rewrite length_app. lia.
Qed.

(** X14.  The positional form works with the [SET] keyword.  For a first
    and a last token without white space, any middle text, and no [:]
    anywhere, the line [SET <first> <middle> <last>] sets [kp], [ki] and [kd]
    to the numbers read from the first token, the middle text and the last
    token, clears the integral and prints the confirmation. *)
Theorem positional_SET_line_sets_gains (a m c : string) (st : State) :
  a <> "" -> c <> "" ->
  no_space a = true -> no_space c = true ->
  (WString.indexOf (a ++ " " ++ m ++ " " ++ c) ":" < 0)%Z ->
  processSerialCommand (Some ("SET " ++ a ++ " " ++ m ++ " " ++ c)) st
  = (with_gains (WString.toFloat a, WString.toFloat m, WString.toFloat c) st,
     pid_updated
       (with_gains (WString.toFloat a, WString.toFloat m, WString.toFloat c)
          st)).
Proof.
  intros Ha Hc Hsa Hsc Hcolon.
  change (a ++ " " ++ m ++ " " ++ c)
    with (a ++ String " " (m ++ String " " c)) in *.
  set (text := a ++ String " " (m ++ String " " c)) in *.
  assert (Htail : WString.drop_trailing_space text = text /\ text <> "").
  { unfold text.
    destruct (drop_trailing_space_app " " c
                (drop_trailing_space_no_space c Hsc) Hc) as [H1 N1].
    destruct (drop_trailing_space_app m _ H1 N1) as [H2 N2].
    destruct (drop_trailing_space_app " " _ H2 N2) as [H3 N3].
    exact (drop_trailing_space_app a _ H3 N3). }
  destruct Htail as [Htail Hne].
  assert (Hhead : WString.skip_space text = text)
    by (apply skip_space_no_space; assumption).
  assert (Htrim : WString.trim ("SET " ++ text) = "SET " ++ text).
  { unfold WString.trim.
    change (WString.skip_space ("SET " ++ text)) with ("SET " ++ text).
    exact (proj1 (drop_trailing_space_app "SET " text Htail Hne)). }
  assert (Hd : dispatch (WString.trim ("SET " ++ text)) = BrGains)
    by (rewrite Htrim; reflexivity).
  rewrite (gains_branch _ st Hd). cbv zeta.
  assert (Hparams : gain_params (WString.trim ("SET " ++ text)) = text).
  { rewrite Htrim. unfold gain_params.
    change (WString.startsWith ("SET " ++ text) "SET") with true. cbv iota.
    change ("SET " ++ text) with ("SET" ++ String " " text).
    pose proof (substringFrom_skip "SET" (String " " text)) as Hcut.
    change (WString.len "SET") with 3%Z in Hcut. rewrite Hcut.
    unfold WString.trim.
    change (WString.skip_space (String " " text))
      with (WString.skip_space text).
    now rewrite Hhead. }
  rewrite Hparams. unfold text.
  rewrite (positional_parse a m c Ha (no_space_free_of a Hsa)
             (no_space_free_of c Hsc) _ Hcolon).
  reflexivity.
Qed.

Lemma positional_SET_line_sets_gains_witness :
  processSerialCommand (Some ("SET " ++ "1.5" ++ " " ++ "0.2" ++ " " ++ "0.05"))
    init_state
  = (with_gains (3 # 2, 1 # 5, 1 # 20) init_state,
     pid_updated (with_gains (3 # 2, 1 # 5, 1 # 20) init_state)).
Proof.
  apply (positional_SET_line_sets_gains "1.5" "0.2" "0.05" init_state);
    try discriminate; reflexivity.
Defined.

Lemma drop_skip (a r : string) (n : nat) :
  WString.drop (String.length a + n) (a ++ r) = WString.drop n r.
Proof. induction a as [|x a IH]; [reflexivity | exact IH]. Qed.

Section Marker.

Variables (pre : string) (k1 k2 : ascii) (v : string).
Hypothesis v_free : free_of " " v = true.

Let start : Z := (WString.len pre + 2)%Z.

Lemma marker_text_length (rest : string) :
  String.length (pre ++ String k1 (String k2 (v ++ rest)))
  = (String.length pre + 2 + String.length v + String.length rest)%nat.
Proof. rewrite length_app. cbn [String.length]. rewrite length_app. lia. Qed.

Lemma marker_text_value (rest : string) (j : nat) :
  j = (String.length pre + 2 + String.length v)%nat ->
  (0 < String.length v + String.length rest)%nat ->
  WString.substring (pre ++ String k1 (String k2 (v ++ rest)))
    start (Z.of_nat j) = v.
Proof.
  intros -> Hpos. unfold start, WString.len.
  replace (Z.of_nat (String.length pre) + 2)%Z
    with (Z.of_nat (String.length pre + 2)) by lia.
  rewrite substring_nat.
  - replace (String.length pre + 2 + String.length v
             - (String.length pre + 2))%nat
      with (String.length v) by lia.
    rewrite substring_skip. cbn [String.substring]. apply substring_take.
  - rewrite marker_text_length. lia.
  - rewrite marker_text_length. lia.
Qed.

Lemma marker_at_end :
  marker_value (pre ++ String k1 (String k2 (v ++ ""))) (WString.len pre)
  = WString.toFloat v.
Proof.
  unfold marker_value. fold start.
  pose proof (marker_text_length "") as Hlen. cbn [String.length] in Hlen.
  set (text := pre ++ String k1 (String k2 (v ++ ""))) in *.
  assert (Hscan : WString.indexOfFrom text " " start = (-1)%Z).
  { unfold WString.indexOfFrom.
    destruct ((start <? 0)%Z || (WString.len text <=? start)%Z)%bool eqn:Hg;
      [reflexivity|].
    unfold start, WString.len.
    replace (Z.to_nat (Z.of_nat (String.length pre) + 2))
      with (String.length pre + 2)%nat by lia.
    unfold text. rewrite drop_skip. cbn [WString.drop].
    now rewrite app_empty_r, (strstr_free " " v v_free). }
  rewrite Hscan. cbn [Z.ltb Z.compare].
  destruct (Nat.eq_dec (String.length v) 0) as [Hz|Hnz].
  - unfold WString.substring.
    replace (WString.len text <? start)%Z with false
      by (symmetry; apply Z.ltb_ge; unfold start, WString.len;
          rewrite Hlen; lia).
    replace (WString.len text <=? start)%Z with true
      by (symmetry; apply Z.leb_le; unfold start, WString.len;
          rewrite Hlen; lia).
    now rewrite (length_zero v Hz).
  - unfold WString.len at 1. unfold text. f_equal.
    apply marker_text_value; [|cbn [String.length]; lia].
    rewrite marker_text_length. cbn [String.length]. lia.
Qed.

Lemma marker_before_space (r : string) :
  marker_value (pre ++ String k1 (String k2 (v ++ String " " r)))
    (WString.len pre)
  = WString.toFloat v.
Proof.
  unfold marker_value. fold start.
  pose proof (marker_text_length (String " " r)) as Hlen.
  cbn [String.length] in Hlen.
  set (text := pre ++ String k1 (String k2 (v ++ String " " r))) in *.
  assert (Hscan : WString.indexOfFrom text " " start
                  = Z.of_nat (String.length pre + 2 + String.length v)).
  { unfold WString.indexOfFrom.
    assert (Hg : ((start <? 0)%Z || (WString.len text <=? start)%Z)%bool
                 = false).
    { apply orb_false_iff. unfold start, WString.len. rewrite Hlen.
      split; [apply Z.ltb_ge | apply Z.leb_gt]; lia. }
    rewrite Hg. unfold start, WString.len.
    replace (Z.to_nat (Z.of_nat (String.length pre) + 2))
      with (String.length pre + 2)%nat by lia.
    unfold text. rewrite drop_skip. cbn [WString.drop].
    rewrite (strstr_after_free " " v r v_free). lia. }
  rewrite Hscan.
  replace (Z.of_nat (String.length pre + 2 + String.length v) <? 0)%Z
    with false by (symmetry; apply Z.ltb_ge; lia).
  unfold text. f_equal.
  apply marker_text_value; [reflexivity | cbn [String.length]; lia].
Qed.

End Marker.

(** X15.  The value of a marker is the text between the marker and the
    next space, or the end of the parameter text when no space follows: for
    a two-character marker at position [len pre] followed by a text [v]
    without space, the gain is the number read from [v], whatever precedes
    the marker and whatever follows the space. *)
Theorem marker_value_reads_to_space
        (pre : string) (k1 k2 : ascii) (v rest : string) :
  free_of " " v = true ->
  rest = "" \/ (exists r, rest = String " " r) ->
  marker_value (pre ++ String k1 (String k2 (v ++ rest))) (WString.len pre)
  = WString.toFloat v.
Proof.
  intros Hv [-> | [r ->]].
  - now apply marker_at_end.
  - now apply marker_before_space.
Qed.

Lemma marker_value_reads_to_space_witness :
  marker_value ("P:2.0 " ++ String "I" (String ":" ("0.5" ++ " D:7")))
    (WString.len "P:2.0 ")
  = 1 # 2.
Proof.
  apply (marker_value_reads_to_space "P:2.0 " "I" ":" "0.5" " D:7").
  - reflexivity.
  - right. exists "D:7". reflexivity.
Defined.

(* ------------------------------------------------------------------------- *)
(** ** Binary32: rounding *)
(* ------------------------------------------------------------------------- *)

(** From here on the names of the sketch are those of [Module Binary32]. *)
Import Binary32.

Lemma pow2_pos (e : Z) : 0 < 2 ^ e.
Proof. apply Qpower_0_lt. reflexivity. Qed.

Lemma pow2_succ (e : Z) : 2 ^ (e + 1) == 2 * 2 ^ e.
Proof.
  rewrite Qpower_plus by discriminate. rewrite Qmult_comm. reflexivity.
Qed.

Lemma pow2_le (x y : Z) : (x <= y)%Z -> 2 ^ x <= 2 ^ y.
Proof. intros H. apply Qpower_le_compat_l; [exact H | discriminate]. Qed.

Lemma pow2_lt_inv (x y : Z) : 2 ^ x < 2 ^ y -> (x < y)%Z.
Proof. intros H. apply (Qpower_lt_compat_l_inv 2); [exact H | reflexivity]. Qed.

Lemma rne_error (x : Q) : Qabs (inject_Z (rne x) - x) <= 1 # 2.
Proof.
  unfold rne.
  pose proof (Qfloor_le x) as Hlo. pose proof (Qlt_floor x) as Hhi.
  rewrite inject_Z_plus in Hhi. change (inject_Z 1) with 1 in Hhi.
  destruct (Qcompare (2 * (x - inject_Z (Qfloor x))) 1) eqn:Hc.
  - apply Qeq_alt in Hc.
    destruct (Z.even (Qfloor x));
      [|rewrite inject_Z_plus; change (inject_Z 1) with 1];
      apply Qabs_case; intros; lra.
  - apply Qlt_alt in Hc. apply Qabs_case; intros; lra.
  - apply Qgt_alt in Hc. rewrite inject_Z_plus. change (inject_Z 1) with 1.
    apply Qabs_case; intros; lra.
Qed.

Lemma rne_ge (x : Q) (n : Z) : inject_Z n <= x -> (n <= rne x)%Z.
Proof.
  intros H. apply Qfloor_resp_le in H. rewrite Qfloor_Z in H.
  unfold rne.
  destruct (Qcompare _ 1); [destruct (Z.even _)| |]; lia.
Qed.

Lemma ilog2_spec (a : Q) : 0 < a -> 2 ^ ilog2 a <= a < 2 ^ (ilog2 a + 1).
Proof.
  intros Ha. destruct a as [n d]. unfold ilog2. cbn [Qnum Qden].
  assert (Hn : (0 < n)%Z) by (unfold Qlt in Ha; cbn in Ha; lia).
  pose proof (Z.log2_spec n Hn) as [Hn1 Hn2].
  pose proof (Z.log2_spec (Zpos d) eq_refl) as [Hd1 Hd2].
  pose proof (Z.log2_nonneg n) as Hln. pose proof (Z.log2_nonneg (Zpos d)) as Hld.
  set (ln := Z.log2 n) in *. set (ld := Z.log2 (Zpos d)) in *.
  assert (Qn1 : 2 ^ ln <= inject_Z n).
  { rewrite <- (Zpower_Qpower 2 ln Hln). now rewrite <- Zle_Qle. }
  assert (Qn2 : inject_Z n < 2 * 2 ^ ln).
  { rewrite <- pow2_succ, <- (Zpower_Qpower 2 (ln + 1)) by lia.
    rewrite <- Zlt_Qlt. exact Hn2. }
  assert (Qd1 : 2 ^ ld <= inject_Z (Zpos d)).
  { rewrite <- (Zpower_Qpower 2 ld Hld). now rewrite <- Zle_Qle. }
  assert (Qd2 : inject_Z (Zpos d) < 2 * 2 ^ ld).
  { rewrite <- pow2_succ, <- (Zpower_Qpower 2 (ld + 1)) by lia.
    rewrite <- Zlt_Qlt. exact Hd2. }
  pose proof (pow2_pos ln) as Pn. pose proof (pow2_pos ld) as Pd.
  assert (Hk : 2 ^ (ln - ld) == 2 ^ ln / 2 ^ ld)
    by (apply Qpower_minus; discriminate).
  assert (Ha' : n # d == inject_Z n / inject_Z (Zpos d))
    by apply Qmake_Qdiv.
  assert (Dpos : 0 < inject_Z (Zpos d)) by reflexivity.
  assert (Hup : n # d < 2 * 2 ^ (ln - ld)).
  { rewrite Hk, Ha'. apply Qlt_shift_div_r; [exact Dpos|].
    setoid_replace (2 * (2 ^ ln / 2 ^ ld) * inject_Z (Z.pos d))
      with ((2 * 2 ^ ln) * (inject_Z (Z.pos d) / 2 ^ ld))
      by (field; intros E; rewrite E in Pd; discriminate).
    assert (1 <= inject_Z (Z.pos d) / 2 ^ ld).
    { apply Qle_shift_div_l; [exact Pd | lra]. }
    nra. }
  assert (Hdown : 2 ^ (ln - ld) / 2 <= n # d).
  { rewrite Hk, Ha'. apply Qle_shift_div_l; [exact Dpos|].
    setoid_replace (2 ^ ln / 2 ^ ld / 2 * inject_Z (Z.pos d))
      with (2 ^ ln * (inject_Z (Z.pos d) / (2 * 2 ^ ld)))
      by (field; intros E; rewrite E in Pd; discriminate).
    assert (inject_Z (Z.pos d) / (2 * 2 ^ ld) <= 1).
    { apply Qle_shift_div_r; lra. }
    assert (0 <= inject_Z (Z.pos d) / (2 * 2 ^ ld)).
    { apply Qle_shift_div_l; lra. }
    nra. }
  destruct (Qle_bool (2 ^ (ln - ld)) (n # d)) eqn:Hb.
  - apply Qle_bool_iff in Hb. rewrite pow2_succ. split; [exact Hb | exact Hup].
  - assert (Hlt : n # d < 2 ^ (ln - ld)).
    { apply Qnot_le_lt. intros H. apply Qle_bool_iff in H. congruence. }
    replace (ln - ld - 1 + 1)%Z with (ln - ld)%Z by lia.
    split; [|exact Hlt].
    assert (E : 2 ^ (ln - ld) == 2 * 2 ^ (ln - ld - 1)).
    { rewrite <- pow2_succ. replace (ln - ld - 1 + 1)%Z with (ln - ld)%Z by lia.
      reflexivity. }
    rewrite E in Hdown.
    setoid_replace (2 * 2 ^ (ln - ld - 1) / 2) with (2 ^ (ln - ld - 1)) in Hdown
      by field.
    exact Hdown.
Qed.

Lemma round_never_nan (q : Q) : round q <> NaN.
Proof.
  unfold round, round_to.
  destruct (Qeq_bool q 0); [discriminate|].
  destruct (Qle_bool _ _); discriminate.
Qed.

Lemma round_zero (q : Q) : q == 0 -> round q = Fin 0.
Proof.
  intros H. unfold round, round_to. apply Qeq_bool_iff in H. now rewrite H.
Qed.

Lemma round_nonzero (q : Q) :
  ~ q == 0 ->
  round q
  = if Qle_bool (2 ^ 128) (rounded_magnitude (Qabs q))
    then Inf (Qltb q 0)
    else Fin (Qred (if Qltb q 0 then - rounded_magnitude (Qabs q)
                    else rounded_magnitude (Qabs q))).
Proof.
  intros H. unfold round, round_to.
  destruct (Qeq_bool q 0) eqn:E; [apply Qeq_bool_iff in E; contradiction|].
  reflexivity.
Qed.

Lemma rounded_magnitude_error (a : Q) :
  Qabs (rounded_magnitude a - a) <= (1 # 2) * 2 ^ ulp_exp 24 128 a.
Proof.
  unfold rounded_magnitude. set (e := ulp_exp 24 128 a).
  pose proof (pow2_pos e) as Pe.
  pose proof (rne_error (a / 2 ^ e)) as Hr.
  set (m := inject_Z (rne (a / 2 ^ e))) in *.
  assert (E : m * 2 ^ e - a == (m - a / 2 ^ e) * 2 ^ e)
    by (field; intros Z0; rewrite Z0 in Pe; discriminate).
  rewrite E, Qabs_Qmult, (Qabs_pos (2 ^ e)) by lra.
  apply Qmult_le_compat_r; [exact Hr | lra].
Qed.

Lemma rounded_magnitude_nonneg (a : Q) : 0 < a -> 0 <= rounded_magnitude a.
Proof.
  intros Ha. unfold rounded_magnitude. set (e := ulp_exp 24 128 a).
  pose proof (pow2_pos e) as Pe.
  assert (H0 : (0 <= rne (a / 2 ^ e))%Z).
  { apply rne_ge. change (inject_Z 0) with 0.
    apply Qle_shift_div_l; [exact Pe | lra]. }
  apply Qmult_le_0_compat; [|lra].
  change 0 with (inject_Z 0). now rewrite <- Zle_Qle.
Qed.

Lemma Qabs_nonzero_pos (q : Q) : ~ q == 0 -> 0 < Qabs q.
Proof.
  intros H. apply Qabs_case; intros Hq.
  - destruct (Qlt_le_dec 0 q) as [L|L]; [exact L|]. exfalso. apply H. lra.
  - destruct (Qlt_le_dec q 0) as [L|L]; [lra|]. exfalso. apply H. lra.
Qed.

Lemma ulp_exp_upper (a : Q) (K : Z) :
  0 < a -> a < 2 ^ K -> (-125 <= K)%Z -> (ulp_exp 24 128 a <= K - 24)%Z.
Proof.
  intros Ha Hlt HK. unfold ulp_exp.
  destruct (ilog2_spec a Ha) as [Hlo _].
  assert (ilog2 a < K)%Z by (apply pow2_lt_inv; lra).
  lia.
Qed.

Lemma ulp_exp_normal (a : Q) (K : Z) :
  0 < a -> 2 ^ K <= a -> (-126 <= K)%Z ->
  ulp_exp 24 128 a = (ilog2 a - 23)%Z /\ (K <= ilog2 a)%Z.
Proof.
  intros Ha Hge HK. unfold ulp_exp.
  destruct (ilog2_spec a Ha) as [_ Hhi].
  assert (K < ilog2 a + 1)%Z by (apply pow2_lt_inv; lra).
  lia.
Qed.

(** Below 8192 the rounding is to a number, at most [2^-12] away. *)
Lemma round_below_8192 (q : Q) :
  Qabs q < 8192 ->
  exists v, round q = Fin v /\ Qabs (v - q) <= 1 # 4096.
Proof.
  intros Hq. destruct (Qeq_dec q 0) as [Hz|Hnz].
  - exists 0. split; [now apply round_zero|].
    rewrite Hz. apply Qabs_case; intros; lra.
  - pose proof (Qabs_nonzero_pos q Hnz) as Ha.
    rewrite (round_nonzero q Hnz).
    pose proof (rounded_magnitude_error (Qabs q)) as Herr.
    assert (He : (ulp_exp 24 128 (Qabs q) <= -11)%Z).
    { apply (ulp_exp_upper (Qabs q) 13 Ha); [|lia].
      setoid_replace (2 ^ 13) with 8192 by reflexivity. exact Hq. }
    pose proof (pow2_le _ _ He) as Hp.
    setoid_replace (2 ^ (-11)) with (1 # 2048) in Hp by reflexivity.
    set (v := rounded_magnitude (Qabs q)) in *.
    set (u := 2 ^ ulp_exp 24 128 (Qabs q)) in *.
    assert (Hv : Qabs (v - Qabs q) <= 1 # 4096) by lra.
    assert (Hsmall : v < 2 ^ 128).
    { assert (8193 < 2 ^ 128) by reflexivity.
      revert Hv. apply Qabs_case; intros; lra. }
    destruct (Qle_bool (2 ^ 128) v) eqn:Hb;
      [apply Qle_bool_iff in Hb; lra|].
    eexists. split; [reflexivity|]. rewrite Qred_correct.
    destruct (Qltb q 0) eqn:Hs.
    + apply Qltb_true in Hs. rewrite (Qabs_neg q) in Hv by lra.
      revert Hv. apply Qabs_case; intros; apply Qabs_case; intros; lra.
    + apply Qltb_false in Hs. rewrite (Qabs_pos q) in Hv by lra.
      exact Hv.
Qed.

(** A rounding that ends at most 500 away from 0 started at most
    [500 + 2^-12] away. *)
Lemma round_small_result (d v : Q) :
  round d = Fin v -> Qabs v <= 500 -> Qabs d <= 500 + (1 # 4096).
Proof.
  intros Hr Hv. destruct (Qeq_dec d 0) as [Hz|Hnz].
  - rewrite Hz. apply Qabs_case; intros; lra.
  - destruct (Qlt_le_dec (500 + (1 # 4096)) (Qabs d)) as [Hbig|]; [|assumption].
    exfalso.
    pose proof (Qabs_nonzero_pos d Hnz) as Ha.
    rewrite (round_nonzero d Hnz) in Hr.
    pose proof (rounded_magnitude_error (Qabs d)) as Herr.
    pose proof (rounded_magnitude_nonneg (Qabs d) Ha) as Hnn.
    destruct (ulp_exp_normal (Qabs d) 8 Ha) as [He Hk]; [|lia|].
    { setoid_replace (2 ^ 8) with 256 by reflexivity. lra. }
    destruct (ilog2_spec (Qabs d) Ha) as [Hlo _].
    assert (Hp : 2 ^ ilog2 (Qabs d) == 8388608 * 2 ^ ulp_exp 24 128 (Qabs d)).
    { rewrite He.
      replace (ilog2 (Qabs d)) with (23 + (ilog2 (Qabs d) - 23))%Z at 1 by lia.
      rewrite Qpower_plus by discriminate. reflexivity. }
    pose proof (pow2_pos (ulp_exp 24 128 (Qabs d))) as Pe.
    set (v0 := rounded_magnitude (Qabs d)) in *.
    set (u := 2 ^ ulp_exp 24 128 (Qabs d)) in *.
    assert (Hv0 : 500 < v0).
    { revert Herr. apply Qabs_case; intros; lra. }
    destruct (Qle_bool (2 ^ 128) v0); [discriminate|].
    injection Hr as <-. rewrite Qred_correct in Hv.
    destruct (Qltb d 0); revert Hv; apply Qabs_case; intros; lra.
Qed.

(* ------------------------------------------------------------------------- *)
(** ** Binary32: comparisons and [constrain] *)
(* ------------------------------------------------------------------------- *)

Lemma lit_values :
  lit 0 = Fin 0 /\ lit 500 = Fin 500 /\ lit 6000 = Fin 6000 /\
  lit 100 = Fin 100 /\ fneg (lit 100) = Fin (-100) /\
  fneg (lit 500) = Fin (-500).
Proof. repeat split; reflexivity. Qed.


Lemma b32_constrain_within (x : f32) (l h : Q) :
  l <= h -> x <> NaN -> within l h (constrain x (Fin l) (Fin h)).
Proof.
  intros Hlh Hx. unfold constrain, fgt, within.
  destruct x as [a|s|]; cbn [flt]; [| |congruence].
  - destruct (Qltb a l) eqn:H1.
    + exists l. split; [reflexivity | lra].
    + apply Qltb_false in H1. destruct (Qltb h a) eqn:H2.
      * exists h. split; [reflexivity | lra].
      * apply Qltb_false in H2. exists a. split; [reflexivity | lra].
  - destruct s; cbn.
    + exists l. split; [reflexivity | lra].
    + exists h. split; [reflexivity | lra].
Qed.

Lemma b32_constrain_nan_or_within (x : f32) (l h : Q) :
  l <= h -> nan_or_within l h (constrain x (Fin l) (Fin h)).
Proof.
  intros Hlh. destruct x as [a|s|].
  - right. apply b32_constrain_within; [exact Hlh | discriminate].
  - right. apply b32_constrain_within; [exact Hlh | discriminate].
  - left. reflexivity.
Qed.

(** [constrain] moves a number towards any point of the range. *)
Lemma b32_constrain_closer (a l h p c : Q) :
  l <= p <= h ->
  constrain (Fin a) (Fin l) (Fin h) = Fin c ->
  Qabs (c - p) <= Qabs (a - p).
Proof.
  intros [Hl Hh]. unfold constrain, fgt; cbn [flt].
  destruct (Qltb a l) eqn:H1.
  - apply Qltb_true in H1. intros [= <-].
    apply Qabs_case; intros; apply Qabs_case; intros; lra.
  - apply Qltb_false in H1. destruct (Qltb h a) eqn:H2.
    + apply Qltb_true in H2. intros [= <-].
      apply Qabs_case; intros; apply Qabs_case; intros; lra.
    + intros [= <-]. lra.
Qed.

(* ------------------------------------------------------------------------- *)
(** ** Binary32: one control step *)
(* ------------------------------------------------------------------------- *)

Lemma b32_computePID_output (st : State) :
  pwm_output (computePID st) = constrain (rate_limited st) (Fin 0) (Fin 6000)
  /\ prev_pwm_output (computePID st) = pwm_output (computePID st).
Proof. split; reflexivity. Qed.







Lemma b32_output_nan_or_within (st : State) :
  nan_or_within 0 6000 (pwm_output (computePID st)).
Proof.
  rewrite (proj1 (b32_computePID_output st)).
  apply b32_constrain_nan_or_within. lra.
Qed.

Lemma flt_false_le (a b : Q) : flt (Fin a) (Fin b) = false -> b <= a.
Proof. cbn. apply Qltb_false. Qed.

(** The rate limit: from a previous output within the range, a step that
    returns a number returns one at most [500 + SLEW_ROUNDING] away. *)
Lemma b32_computePID_slew (st : State) (p o : Q) :
  prev_pwm_output st = Fin p -> 0 <= p <= 6000 ->
  pwm_output (computePID st) = Fin o ->
  Qabs (o - p) <= 500 + SLEW_ROUNDING.
Proof.
  intros Hprev Hp. rewrite (proj1 (b32_computePID_output st)).
  unfold rate_limited, SLEW_ROUNDING. rewrite Hprev.
  change PWM_CHANGE_MAX with (Fin 500).
  change (fneg (Fin 500)) with (Fin (-500)).
  change (lit 0) with (Fin 0).
  destruct (fgt (fabs (fsub (pid_raw st) (Fin p))) (Fin 500)) eqn:Hslew.
  - assert (Hstep : forall s : Q,
               - (500) <= s <= 500 ->
               constrain (fadd (Fin p) (Fin s)) (Fin 0) (Fin 6000) = Fin o ->
               Qabs (o - p) <= 500 + (1 # 4096)).
    { intros s Hs Hout. cbn [fadd] in Hout.
      destruct (round_below_8192 (p + s)) as (w & Hw & Herr).
      { apply Qabs_case; intros; lra. }
      rewrite Hw in Hout.
      pose proof (b32_constrain_closer w 0 6000 p o Hp Hout) as Hc.
      apply Qabs_Qle_condition in Herr.
      eapply Qle_trans; [exact Hc|].
      apply Qabs_Qle_condition. lra. }
    destruct (fgt (fsub (pid_raw st) (Fin p)) (Fin 0)).
    + apply Hstep. lra.
    + apply Hstep. lra.
  - intros Hout.
    destruct (pid_raw st) as [r|s|] eqn:Hraw.
    + unfold fsub, fneg in Hslew. cbn [fadd] in Hslew.
      destruct (round (r + - p)) as [d|s|] eqn:Hd.
      * cbn [fabs] in Hslew. unfold fgt in Hslew.
        apply flt_false_le in Hslew.
        pose proof (round_small_result (r + - p) d Hd Hslew) as Hrp.
        pose proof (b32_constrain_closer r 0 6000 p o Hp Hout) as Hc.
        eapply Qle_trans; [exact Hc|].
        apply Qabs_Qle_condition in Hrp. apply Qabs_Qle_condition. lra.
      * discriminate Hslew.
      * now destruct (round_never_nan (r + - p)).
    + destruct s; discriminate Hslew.
    + discriminate Hout.
Qed.

(* ------------------------------------------------------------------------- *)
(** ** Binary32: commands and the main loop *)
(* ------------------------------------------------------------------------- *)

(** What no command touches, and the only two ways it writes [integral] and
    [pwm_output]. *)
Lemma b32_processSerialCommand_frame (input : option string) (st : State) :
  let st' := fst (processSerialCommand input st) in
  prev_pwm_output st' = prev_pwm_output st /\
  (integral st' = integral st \/ integral st' = Fin 0) /\
  (pwm_output st' = pwm_output st \/ pwm_output st' = Fin 0).
Proof.
  destruct input as [line|]; [|cbn; tauto].
  unfold processSerialCommand.
  destruct (WString.len (WString.trim line) =? 0)%Z; [cbn; tauto|].
  destruct (dispatch (WString.trim line)) eqn:Hd.
  - destruct (parse_gains _ _) as [[new_kp new_ki] new_kd]. cbn. tauto.
  - now destruct (dispatch_not_setpoint (WString.trim line)).
  - cbn. tauto.
  - cbn. tauto.
  - cbn. tauto.
Qed.

Lemma b32_loop_fst (now : Z) (input : option string) (st : State) :
  fst (loop now input st) =
  fst (processSerialCommand input
         (if control_due now st
          then updateSimulation (computePID (stamp now st))
          else st)).
Proof.
  unfold loop.
  destruct (control_due now st);
    destruct (processSerialCommand input _); reflexivity.
Qed.

Lemma b32_run_fst_cons (now : Z) (input : option string)
      (rest : list (Z * option string)) (st : State) :
  fst (run ((now, input) :: rest) st) = fst (run rest (fst (loop now input st))).
Proof.
  cbn [run]. destruct (loop now input st) as [st1 out1]; cbn [fst].
  destruct (run rest st1); reflexivity.
Qed.

Section Binary32Invariant.

Variable P : State -> Prop.
Hypothesis P_loop :
  forall now input st, P st -> P (fst (loop now input st)).

Lemma b32_run_invariant (passes : list (Z * option string)) :
  forall st, P st -> P (fst (run passes st)).
Proof.
  induction passes as [|[now input] rest IH]; intros st HP.
  - exact HP.
  - rewrite b32_run_fst_cons. apply IH, P_loop, HP.
Qed.

End Binary32Invariant.

Lemma nan_or_within_0 (l h : Q) : l <= 0 <= h -> nan_or_within l h (Fin 0).
Proof. intros H. right. exists 0. split; [reflexivity | exact H]. Qed.










Lemma b32_loop_prev_pwm_output (now : Z) (input : option string) (st : State) :
  prev_pwm_output (fst (loop now input st)) =
  if control_due now st then pwm_output (computePID (stamp now st))
  else prev_pwm_output st.
Proof.
  rewrite b32_loop_fst.
  destruct (b32_processSerialCommand_frame input
              (if control_due now st
               then updateSimulation (computePID (stamp now st)) else st))
    as (Hprev & _).
  rewrite Hprev. destruct (control_due now st); [|reflexivity].
  transitivity (prev_pwm_output (computePID (stamp now st))).
  - generalize (computePID (stamp now st)). reflexivity.
  - exact (proj2 (b32_computePID_output (stamp now st))).
Qed.

Lemma b32_slew_step_from (st : State) :
  nan_or_within 0 6000 (prev_pwm_output st) ->
  slew_step (prev_pwm_output st) (pwm_output (computePID st)).
Proof.
  intros [Hnan | (p & Hp & Hrange)].
  - rewrite Hnan. exact I.
  - rewrite Hp. destruct (pwm_output (computePID st)) as [o| |] eqn:Ho;
      cbn [slew_step]; try exact I.
    exact (b32_computePID_slew st p o Hp Hrange Ho).
Qed.

Lemma b32_control_outputs_slew (passes : list (Z * option string)) :
  forall st,
    nan_or_within 0 6000 (prev_pwm_output st) ->
    slew_chain (prev_pwm_output st) (control_outputs passes st).
Proof.
  induction passes as [|[now input] rest IH]; intros st Hprev.
  - exact I.
  - cbn [control_outputs].
    pose proof (b32_loop_prev_pwm_output now input st) as Hnext.
    destruct (control_due now st).
    + split.
      * exact (b32_slew_step_from (stamp now st) Hprev).
      * rewrite <- Hnext. apply IH. rewrite Hnext.
        apply b32_output_nan_or_within.
    + rewrite <- Hnext. apply IH. now rewrite Hnext.
Qed.

(* ------------------------------------------------------------------------- *)
(** ** Binary32: the sketch on concrete inputs *)
(* ------------------------------------------------------------------------- *)

(** The operations agree with the binary32 operations of [SpecFloat] where
    the first control steps of the sketch round: a sum that falls half-way
    between two values, the sum [160.399993896484375 + 500], a product, two
    quotients and a product that is out of range. *)
Example fadd_agrees_with_SFadd_tie :
  of_spec (SFadd 24 128 (S754_finite false 10538189 (-17))
                        (S754_finite false 10485760 (-17)))
  = fadd (of_spec (S754_finite false 10538189 (-17)))
         (of_spec (S754_finite false 10485760 (-17))).
Proof. reflexivity. Qed.

Example fadd_agrees_with_SFadd :
  of_spec (SFadd 24 128 (S754_finite false 10511974 (-16))
                        (S754_finite false 16384000 (-15)))
  = fadd (of_spec (S754_finite false 10511974 (-16))) (lit 500).
Proof. reflexivity. Qed.

Example fmul_agrees_with_SFmul :
  of_spec (SFmul 24 128 (S754_finite false 13421773 (-28))
                        (S754_finite false 10485760 (-17)))
  = fmul (lit 0.05) (lit 80).
Proof. reflexivity. Qed.

Example fdiv_agrees_with_SFdiv :
  of_spec (SFdiv 24 128 (S754_finite false 8388608 (-23))
                        (S754_finite false 10485760 (-20)))
  = lit 0.1 /\
  of_spec (SFdiv 24 128 (S754_finite false 10485760 (-17))
                        (S754_finite false 13421773 (-28)))
  = fdiv (lit 80) interval_s.
Proof. split; reflexivity. Qed.

Example fmul_overflows_like_SFmul :
  of_spec (SFmul 24 128 (S754_finite false 8388608 104)
                        (S754_finite false 10485760 (-17)))
  = fmul (Fin (2 ^ 127)) (lit 80) /\
  fmul (Fin (2 ^ 127)) (lit 80) = Inf false.
Proof. split; reflexivity. Qed.

Example samples_are_binary32 :
  forallb (valid_binary 24 128) binary32_samples = true.
Proof. vm_compute. reflexivity. Qed.

Example operations_agree_with_SpecFloat :
  agrees_with_SpecFloat binary32_samples = true.
Proof. vm_compute. reflexivity. Qed.

Example toFloat_rounds :
  toFloat "75.5" = Fin (151 # 2) /\
  toFloat "100" = Fin 100 /\
  toFloat "16777217" = Fin 16777216 /\
  toFloat "3e38" = Fin 300000000549775575777803994281145270272 /\
  toFloat "1e40" = Inf false.
Proof. repeat split; vm_compute; reflexivity. Qed.

Example b32_first_control_step :
  pwm_output (computePID init_state) = Fin (5255987 # 32768) /\
  integral (computePID init_state) = Fin 4 /\
  prev_error (computePID init_state) = Fin 80.
Proof. repeat split; vm_compute; reflexivity. Qed.

(* ------------------------------------------------------------------------- *)
(** ** Binary32: the numeric properties *)
(* ------------------------------------------------------------------------- *)

(** C4, as stated, fails in binary32.  From power-up the first control step
    returns 160.399993896484375; the line [SET P:100] then makes the PID
    sum large, so the next step returns the binary32 sum of that output and
    500, which is 660.4000244140625: the two outputs differ by
    [500 + 1/32768], more than 500. *)
Lemma slew_limit_exceeded_by_rounding :
  control_outputs [(50, Some "SET P:100"); (100, None)]%Z init_state
  = [Fin (5255987 # 32768); Fin (5409997 # 8192)] /\
  (5409997 # 8192) - (5255987 # 32768) == 500 + (1 # 32768) /\
  ~ Qabs ((5409997 # 8192) - (5255987 # 32768)) <= 500.
Proof.
  split; [vm_compute; reflexivity|].
  split; [reflexivity|].
  intros H. vm_compute in H. now apply H.
Qed.

(** C4 (amended).  In binary32 two consecutive control outputs that are
    numbers differ by at most [500 + 2^-12]: the rate limit replaces the PID
    sum by the rounded sum of the previous output and 500 (or -500), and that
    rounding, below 8192, adds at most [2^-12].  This holds for one step from
    any state whose previous output is within the PWM range, and between any
    two consecutive control steps along any passes of the main loop, from
    any state and whatever lines arrive in between. *)
Theorem binary32_consecutive_outputs_within_slew_limit :
  (forall (st : State) (p o : Q),
      prev_pwm_output st = Fin p -> 0 <= p <= 6000 ->
      pwm_output (computePID st) = Fin o ->
      Qabs (o - p) <= 500 + SLEW_ROUNDING) /\
  (forall (passes : list (Z * option string)) (st : State),
      match control_outputs passes st with
      | [] => True
      | first :: later => slew_chain first later
      end).
Proof.
  split; [exact b32_computePID_slew|].
  induction passes as [|[now input] rest IH]; intros st.
  - exact I.
  - cbn [control_outputs].
    pose proof (b32_loop_prev_pwm_output now input st) as Hnext.
    destruct (control_due now st).
    + rewrite <- Hnext. apply b32_control_outputs_slew.
      rewrite Hnext. apply b32_output_nan_or_within.
    + apply IH.
Qed.

Lemma binary32_consecutive_outputs_within_slew_limit_witness :
  Qabs ((5409997 # 8192) - (5255987 # 32768)) <= 500 + SLEW_ROUNDING.
Proof.
  apply (proj1 binary32_consecutive_outputs_within_slew_limit
           (fst (loop 50 (Some "SET P:100") init_state))).
  - vm_compute. reflexivity.
  - split; vm_compute; discriminate.
  - vm_compute. reflexivity.
Defined.







(* ------------------------------------------------------------------------- *)
(** ** Binary32: the plant *)
(* ------------------------------------------------------------------------- *)

Lemma plant_constants :
  lit 255 = Fin 255 /\ lit 2 = Fin 2 /\ lit 20 = Fin 20 /\
  lit 0.02 = Fin (5368709 # 268435456).
Proof. repeat split; reflexivity. Qed.

Lemma fadd_nan_r (x : f32) : fadd x NaN = NaN.
Proof. now destruct x. Qed.

(** A NaN output or temperature makes the next temperature NaN. *)
Lemma b32_updateSimulation_temp_nan (st : State) :
  pwm_output st = NaN \/ current_temp st = NaN ->
  current_temp (updateSimulation st) = NaN.
Proof.
  unfold updateSimulation; cbn [current_temp].
  intros [H | H]; rewrite H.
  - cbn [fdiv fmul fsub fadd]. apply fadd_nan_r.
  - reflexivity.
Qed.

(** One plant update on numbers: the exact update
    [20 + 0.98 * (t - 20) + w * 2 / 255] up to the rounding of its six
    operations and of the constant [0.02f]. *)
Lemma b32_updateSimulation_temp (st : State) (w t : Q) :
  pwm_output st = Fin w -> 0 <= w <= 6000 ->
  current_temp st = Fin t -> TEMP_FLOOR <= t <= TEMP_CEILING ->
  exists t',
    current_temp (updateSimulation st) = Fin t' /\
    Qabs (t' - (20 + 0.98 * (t - 20) + w * (2 # 255))) <= PLANT_ROUNDING.
Proof.
  unfold TEMP_FLOOR, TEMP_CEILING, PLANT_ROUNDING.
  intros Hw Hwr Ht Htr.
  unfold updateSimulation; cbn [current_temp].
  destruct plant_constants as (-> & -> & -> & ->).
  rewrite Hw, Ht.
  assert (Hq : w / 255 == w * (1 # 255)) by field.
  change (fdiv (Fin w) (Fin 255)) with (round (w / 255)).
  destruct (round_below_8192 (w / 255)) as (a & -> & Ea).
  { rewrite Hq. apply Qabs_case; intros; lra. }
  rewrite Hq in Ea. apply Qabs_Qle_condition in Ea.
  change (fmul (Fin a) (Fin 2)) with (round (a * 2)).
  destruct (round_below_8192 (a * 2)) as (h & -> & Eh).
  { apply Qabs_case; intros; lra. }
  apply Qabs_Qle_condition in Eh.
  change (fsub (Fin t) (Fin 20)) with (round (t + - 20)).
  destruct (round_below_8192 (t + - 20)) as (d & -> & Ed).
  { apply Qabs_case; intros; lra. }
  apply Qabs_Qle_condition in Ed.
  change (fmul (Fin d) (Fin (5368709 # 268435456)))
    with (round (d * (5368709 # 268435456))).
  destruct (round_below_8192 (d * (5368709 # 268435456))) as (l & -> & El).
  { apply Qabs_case; intros; lra. }
  apply Qabs_Qle_condition in El.
  change (fsub (Fin h) (Fin l)) with (round (h + - l)).
  destruct (round_below_8192 (h + - l)) as (s & -> & Es).
  { apply Qabs_case; intros; lra. }
  apply Qabs_Qle_condition in Es.
  change (fadd (Fin t) (Fin s)) with (round (t + s)).
  destruct (round_below_8192 (t + s)) as (t' & -> & Et).
  { apply Qabs_case; intros; lra. }
  apply Qabs_Qle_condition in Et.
  exists t'. split; [reflexivity|].
  apply Qabs_Qle_condition. split; lra.
Qed.

Lemma b32_updateSimulation_temp_inv (st : State) :
  temp_inv st -> temp_inv (updateSimulation st).
Proof.
  intros [Ht Hp]. split; [|exact Hp].
  destruct Hp as [Hp | (w & Hw & Hwr)].
  { left. apply b32_updateSimulation_temp_nan. now left. }
  destruct Ht as [Ht | (t & Ht & Htr)].
  { left. apply b32_updateSimulation_temp_nan. now right. }
  destruct (b32_updateSimulation_temp st w t Hw Hwr Ht Htr) as (t' & -> & E).
  right. exists t'. split; [reflexivity|].
  unfold TEMP_FLOOR, TEMP_CEILING, PLANT_ROUNDING in *.
  apply Qabs_Qle_condition in E. split; lra.
Qed.

Lemma b32_processSerialCommand_current_temp
      (input : option string) (st : State) :
  current_temp (fst (processSerialCommand input st)) = current_temp st \/
  current_temp (fst (processSerialCommand input st)) = Fin 20.
Proof.
  destruct input as [line|]; [|cbn; tauto].
  unfold processSerialCommand.
  destruct (WString.len (WString.trim line) =? 0)%Z; [cbn; tauto|].
  destruct (dispatch (WString.trim line)) eqn:Hd.
  - destruct (parse_gains _ _) as [[new_kp new_ki] new_kd]. cbn. tauto.
  - now destruct (dispatch_not_setpoint (WString.trim line)).
  - right. reflexivity.
  - cbn. tauto.
  - cbn. tauto.
Qed.

Lemma b32_computePID_current_temp (st : State) :
  current_temp (computePID st) = current_temp st.
Proof. reflexivity. Qed.

Lemma b32_loop_temp_inv (now : Z) (input : option string) (st : State) :
  temp_inv st -> temp_inv (fst (loop now input st)).
Proof.
  intros H. rewrite b32_loop_fst.
  set (st1 := if control_due now st
              then updateSimulation (computePID (stamp now st)) else st).
  assert (H1 : temp_inv st1).
  { unfold st1. destruct (control_due now st); [|exact H].
    apply b32_updateSimulation_temp_inv. split.
    - rewrite b32_computePID_current_temp. exact (proj1 H).
    - apply b32_output_nan_or_within. }
  destruct H1 as [Ht Hp]. split.
  - destruct (b32_processSerialCommand_current_temp input st1) as [-> | ->];
      [exact Ht|].
    right. exists 20. split; [reflexivity|].
    unfold TEMP_FLOOR, TEMP_CEILING. lra.
  - destruct (b32_processSerialCommand_frame input st1) as (_ & _ & Hout).
    destruct Hout as [-> | ->]; [exact Hp | apply nan_or_within_0; lra].
Qed.

Lemma b32_init_temp_inv : temp_inv init_state.
Proof.
  split; [|apply nan_or_within_0; lra].
  right. exists 20. split; [reflexivity|].
  unfold TEMP_FLOOR, TEMP_CEILING. lra.
Qed.

(** The first plant update from power-up, with the output at
    160.399993896484375. *)
Example b32_first_plant_update :
  current_temp (updateSimulation (computePID init_state))
  = Fin (11145335 # 524288).
Proof. vm_compute. reflexivity. Qed.

(** Ten control steps from power-up, with a gain line after the second:
    the output, the temperature, the integral and the previous error. *)
Example b32_ten_control_steps :
  let st :=
    fst (run [(50, None); (100, Some "SET P:2.5 I:0.3 D:0.01"); (150, None);
              (200, None); (250, None); (300, None); (350, None);
              (400, None); (450, None); (500, None)]%Z init_state) in
  pwm_output st = Fin (737795 # 4096) /\
  current_temp st = Fin (8533355 # 262144) /\
  integral st = Fin (7678879 # 262144) /\
  prev_error st = Fin (8995897 # 131072).
Proof. repeat split; vm_compute; reflexivity. Qed.

(** X3.  In binary32 one plant update of a state whose output is within
    [0, PWM_MAX] and whose temperature is within
    [TEMP_FLOOR, TEMP_CEILING] gives a temperature that is a number and
    whose distance to the balance temperature of the current output,
    [20 + pwm_output * 20 / 51], is 0.98 times the distance before, up to
    the rounding of the update, at most [PLANT_ROUNDING] (1/512); a NaN
    output or temperature gives a NaN temperature; nothing but the
    temperature changes. *)
Theorem binary32_plant_contracts_to_equilibrium (st : State) :
  (forall w t : Q,
      pwm_output st = Fin w -> 0 <= w <= 6000 ->
      current_temp st = Fin t -> TEMP_FLOOR <= t <= TEMP_CEILING ->
      exists t',
        current_temp (updateSimulation st) = Fin t' /\
        Qabs ((t' - (20 + w * (20 # 51)))
              - 0.98 * (t - (20 + w * (20 # 51)))) <= PLANT_ROUNDING) /\
  (pwm_output st = NaN \/ current_temp st = NaN ->
   current_temp (updateSimulation st) = NaN) /\
  updateSimulation st
  = {| kp := kp st; ki := ki st; kd := kd st;
       setpoint := setpoint st;
       current_temp := current_temp (updateSimulation st);
       pwm_output := pwm_output st;
       prev_pwm_output := prev_pwm_output st;
       prev_error := prev_error st;
       integral := integral st;
       last_control_time := last_control_time st;
       timestamp_ms := timestamp_ms st |}.
Proof.
  split; [|split; [apply b32_updateSimulation_temp_nan | reflexivity]].
  intros w t Hw Hwr Ht Htr.
  destruct (b32_updateSimulation_temp st w t Hw Hwr Ht Htr) as (t' & Ht' & E).
  exists t'. split; [exact Ht'|].
  unfold PLANT_ROUNDING in *.
  apply Qabs_Qle_condition in E. apply Qabs_Qle_condition. split; lra.
Qed.

Lemma binary32_plant_contracts_to_equilibrium_witness :
  exists t',
    current_temp (updateSimulation (computePID init_state)) = Fin t' /\
    Qabs ((t' - (20 + (5255987 # 32768) * (20 # 51)))
          - 0.98 * (20 - (20 + (5255987 # 32768) * (20 # 51))))
    <= PLANT_ROUNDING.
Proof.
  apply (proj1 (binary32_plant_contracts_to_equilibrium
                  (computePID init_state))).
  - vm_compute. reflexivity.
  - split; vm_compute; discriminate.
  - vm_compute. reflexivity.
  - split; vm_compute; discriminate.
Defined.

(** X4.  In binary32 the simulated temperature is NaN or within
    [TEMP_FLOOR, TEMP_CEILING] (19.9 to 2374: the ambient 20 and the balance
    temperature at full output, about 2373, widened by the rounding of the
    update): with the output NaN or within [0, PWM_MAX], the range is kept
    by every pass of the main loop, whatever the gains and the lines
    received, and holds after any passes from power-up. *)
Theorem binary32_temperature_stays_in_range :
  (forall (passes : list (Z * option string)) (st : State),
      temp_inv st -> temp_inv (fst (run passes st))) /\
  (forall passes : list (Z * option string),
      nan_or_within TEMP_FLOOR TEMP_CEILING
        (current_temp (fst (run passes init_state)))).
Proof.
  split.
  - intros passes. apply b32_run_invariant. exact b32_loop_temp_inv.
  - intros passes.
    apply (b32_run_invariant temp_inv b32_loop_temp_inv passes init_state).
    exact b32_init_temp_inv.
Qed.

Lemma binary32_temperature_stays_in_range_witness :
  temp_inv (fst (run [(50, Some "SET P:100"); (100, Some "RESET")]%Z
                     (computePID init_state))).
Proof.
  apply (proj1 binary32_temperature_stays_in_range).
  split; right; eexists; (split; [vm_compute; reflexivity|]);
    split; vm_compute; discriminate.
Defined.
